(** * jeeQuestionBank: the question-markup renderer and the quiz session

    A shallow embedding of [src/App.tsx] (the component file of the quiz
    application) and the properties of its markup segmenter, table extractor
    and answer bookkeeping.

    Strings are JavaScript strings: finite sequences of UTF-16 code units,
    here lists of [N].  Code that can throw lives in a small exception monad;
    the typesetting engine (KaTeX) and the random comparator of the question
    sampler are parameters of the sections that use them. *)

From Stdlib Require Import NArith String Ascii.
From stdpp Require Import list sorting gmap.

#[local] Set Warnings "-register-all".

(** ** JavaScript strings and the string builtins the component uses *)

Module JS.

Abbreviation jsstring := (list N).

(** A string literal of the source, as its code units. *)
Fixpoint lit (s : string) : jsstring :=
  match s with
  | EmptyString => []
  | String c s' => N_of_ascii c :: lit s'
  end.

(** The line feed, written \n in the source. *)
Definition nl : N := 10%N.

(** WhiteSpace and LineTerminator code units, the ones [trim] strips. *)
Definition is_white_space (c : N) : bool :=
  bool_decide (c ∈ [9; 10; 11; 12; 13; 32; 160; 5760; 8232; 8233; 8239; 8287;
                    12288; 65279]%N)
  || ((8192 <=? c)%N && (c <=? 8202)%N).

Fixpoint trimStart (s : jsstring) : jsstring :=
  match s with
  | [] => []
  | c :: s' => if is_white_space c then trimStart s' else s
  end.

Definition trimEnd (s : jsstring) : jsstring := reverse (trimStart (reverse s)).

(** [s.trim()] *)
Definition trim (s : jsstring) : jsstring := trimEnd (trimStart s).

(** [s.startsWith(p)] *)
Fixpoint startsWith (p s : jsstring) : bool :=
  match p, s with
  | [], _ => true
  | _ :: _, [] => false
  | a :: p', b :: s' => (a =? b)%N && startsWith p' s'
  end.

(** [s.endsWith(p)] *)
Definition endsWith (p s : jsstring) : bool :=
  startsWith (reverse p) (reverse s).

(** The first occurrence of [p] in [s]: the text before it and the text
    after it. *)
Fixpoint search (p s : jsstring) {struct s} : option (jsstring * jsstring) :=
  if startsWith p s then Some ([], drop (length p) s)
  else match s with
       | [] => None
       | c :: s' =>
           match search p s' with
           | Some (before, after) => Some (c :: before, after)
           | None => None
           end
       end.

(** [s.includes(p)] *)
Definition includes (p s : jsstring) : bool :=
  match search p s with Some _ => true | None => false end.

(** [s.slice(2, -2)] *)
Definition slice_2_m2 (s : jsstring) : jsstring :=
  take (length s - 2 - 2) (drop 2 s).

(** [a.join('')] on an array of strings *)
Definition join_empty (a : list jsstring) : jsstring := concat a.

(** The default order of [a.sort()] on strings: code unit by code unit, a
    proper prefix first. *)
Fixpoint str_ltb (a b : jsstring) : bool :=
  match a, b with
  | _, [] => false
  | [], _ :: _ => true
  | x :: a', y :: b' => (x <? y)%N || ((x =? y)%N && str_ltb a' b')
  end.

Definition str_le (a b : jsstring) : Prop := str_ltb b a = false.

Global Instance str_le_dec : RelDecision str_le.
Proof. intros a b. unfold str_le. apply _. Defined.

(** [a.sort()] on an array of strings *)
Definition sort (a : list jsstring) : list jsstring := merge_sort str_le a.

(** [a.forEach((x, index) => ...)] with a callback that updates a local. *)
Fixpoint forEach_from {A S} (f : A → nat → S → S) (index : nat) (a : list A) (s : S)
  : S :=
  match a with
  | [] => s
  | x :: a' => forEach_from f (Datatypes.S index) a' (f x index s)
  end.

Definition forEach {A S} (f : A → nat → S → S) (a : list A) (s : S) : S :=
  forEach_from f 0 a s.

(** [a.join(sep)] on an array of strings *)
Fixpoint join (sep : jsstring) (a : list jsstring) : jsstring :=
  match a with
  | [] => []
  | [x] => x
  | x :: a' => x ++ sep ++ join sep a'
  end.

(** *** split

    [String.prototype.split] walks the string from left to right; at each
    position it tries the separator, and on a match it closes the current
    piece, appends the captures of the match and goes on after the match.
    A [matcher] is the separator tried at the head of a string: the captures
    and the text left after the match. *)

Definition matcher := jsstring → option (list jsstring * jsstring).

Definition cons_hd (c : N) (pieces : list jsstring) : list jsstring :=
  match pieces with
  | [] => []
  | p :: ps => (c :: p) :: ps
  end.

Fixpoint split_loop (fuel : nat) (m : matcher) (s : jsstring) : list jsstring :=
  match fuel with
  | 0 => []
  | S fuel' =>
      match s with
      | [] => [[]]
      | c :: s' =>
          match m s with
          | Some (captures, rest) => [] :: captures ++ split_loop fuel' m rest
          | None => cons_hd c (split_loop fuel' m s')
          end
      end
  end.

Definition split_by (m : matcher) (s : jsstring) : list jsstring :=
  split_loop (S (length s)) m s.

(** A literal, non-empty separator string. *)
Definition sep_match (sep : jsstring) : matcher := λ s,
  if startsWith sep s then Some ([], drop (length sep) s) else None.

(** [s.split(sep)] for a non-empty string [sep] *)
Definition split (sep s : jsstring) : list jsstring := split_by (sep_match sep) s.

(** The regular expression /\n+/ : a maximal run of line feeds. *)
Fixpoint drop_newlines (s : jsstring) : jsstring :=
  match s with
  | [] => []
  | c :: s' => if (c =? nl)%N then drop_newlines s' else s
  end.

Definition newlines_match : matcher := λ s,
  match s with
  | [] => None
  | c :: s' => if (c =? nl)%N then Some ([], drop_newlines s') else None
  end.

(** [s.split(/\n+/)] *)
Definition split_newlines (s : jsstring) : list jsstring := split_by newlines_match s.

(** *** Exceptions

    [TypeError] is what the runtime throws when a property of undefined is
    read; [KatexError] stands for whatever the typesetting engine throws. *)
Inductive exn := TypeError | KatexError.

Inductive result (A : Type) :=
| Ok (a : A)
| Throw (e : exn).
Global Arguments Ok {A} a.
Global Arguments Throw {A} e.

Global Instance result_ret : MRet result := λ A a, Ok a.
Global Instance result_bind : MBind result := λ A B f m,
  match m with Ok a => f a | Throw e => Throw e end.
Global Instance result_fmap : FMap result := λ A B f m,
  match m with Ok a => Ok (f a) | Throw e => Throw e end.

(** [try { body } catch (error) { handler }] *)
Definition try_catch {A} (body : result A) (handler : exn → result A) : result A :=
  match body with
  | Ok a => Ok a
  | Throw e => handler e
  end.

(** [a.map((x, index) => f(x, index))] with a callback that can throw. *)
Fixpoint map_index_from {A B} (f : A → nat → result B) (index : nat) (a : list A)
  : result (list B) :=
  match a with
  | [] => Ok []
  | x :: a' =>
      y ← f x index;
      ys ← map_index_from f (S index) a';
      Ok (y :: ys)
  end.

Definition map_index {A B} (f : A → nat → result B) (a : list A) : result (list B) :=
  map_index_from f 0 a.

End JS.

Import JS.

(** The markers of the source. *)
Definition display_open : jsstring := lit "\[".
Definition display_close : jsstring := lit "\]".
Definition row_separator : jsstring := lit "\\".
Definition hline : jsstring := lit "\hline".
Definition ampersand : jsstring := lit "&".
Definition dollar : jsstring := lit "$".
Definition begin_center : jsstring := lit "\begin{center}".
Definition end_center : jsstring := lit "\end{center}".
Definition begin_tabular : jsstring := lit "\begin{tabular}".
Definition end_tabular : jsstring := lit "\end{tabular}".

(** ** The rendered tree

    What the render functions return: React children.  A string child is
    text, null renders nothing, an array or a fragment renders its children
    in order. *)

Inductive node :=
| Text (s : jsstring)
| Null
| Arr (children : list node)
| Fragment (children : list node)
| SpanHtml (html : jsstring)          (* span with dangerouslySetInnerHTML *)
| SpanText (s : jsstring)             (* span around the raw expression *)
| P (children : list node)            (* a paragraph *)
| DisplayDiv (html : jsstring)        (* centred div with dangerouslySetInnerHTML *)
| DivText (s : jsstring)              (* div around the raw expression *)
| TableEl (content : jsstring)        (* the element of the Table component *)
| TableView (thead : list (list node)) (tbody : list (list (list node))).

(** The children a node contributes to its parent, in order: arrays and
    fragments are flattened, null is skipped. *)
Fixpoint flatten (n : node) : list node :=
  match n with
  | Null => []
  | Arr children | Fragment children =>
      (fix go (l : list node) : list node :=
         match l with
         | [] => []
         | c :: l' => flatten c ++ go l'
         end) children
  | _ => [n]
  end.

Section Render.

(** [katex.renderToString(expression, { throwOnError: false, displayMode })] *)
Variable katex : bool → jsstring → result jsstring.

(** renderMathInline *)
Definition renderMathInline (text : jsstring) : result (list node) :=
  map_index (λ part index,
    if decide (index `mod` 2 = 1) then
      try_catch
        (html ← katex false part; Ok (SpanHtml html))
        (λ error, Ok (SpanText part))
    else Ok (Text part))
    (split dollar text).

(** Table, the component.  Its constant [rows]: *)
Definition Table_rows (content : jsstring) : list jsstring :=
  filter (λ row, row ≠ hline ∧ row ≠ [])
         (trim <$> split row_separator content).

(** [rows[0].split(sep)]: reading split off undefined throws. *)
Definition split_of (sep : jsstring) (row : option jsstring)
  : result (list jsstring) :=
  match row with
  | Some r => Ok (split sep r)
  | None => Throw TypeError
  end.

Definition Table (content : jsstring) : result node :=
  let rows := Table_rows content in
  headers ← fmap (M:=result) (fmap (M:=list) trim)
                 (split_of ampersand (rows !! 0));
  let bodyRows := drop 1 rows in
  thead ← mapM (λ header, renderMathInline header) headers;
  tbody ← mapM (λ row,
             mapM (λ cell, renderMathInline (trim cell))
                  (split ampersand row))
           bodyRows;
  Ok (TableView thead tbody).

(** The separator of the display-math split,
    /(\\\[[\s\S]*?\\\])/ : an opening marker, as little text as possible,
    a closing marker; the whole match is captured. *)
Definition display_match : matcher := λ s,
  if startsWith display_open s then
    match search display_close (drop 2 s) with
    | Some (inner, rest) =>
        Some ([display_open ++ inner ++ display_close], rest)
    | None => None
    end
  else None.

(** [part.match(/\\begin{tabular}([\s\S]*?)\\end{tabular}/)?.[1]] *)
Definition tabular_content (part : jsstring) : option jsstring :=
  match search begin_tabular part with
  | Some (_, after) =>
      match search end_tabular after with
      | Some (content, _) => Some content
      | None => None
      end
  | None => None
  end.

(** The first branch of renderMath: display math as a whole. *)
Definition renderDisplay (text : jsstring) : result node :=
  let parts := split_by display_match text in
  children ← map_index (λ part index,
    if startsWith display_open part && endsWith display_close part then
      let mathContent := slice_2_m2 part in
      try_catch
        (html ← katex true (trim mathContent); Ok (DisplayDiv html))
        (λ error, Ok (DivText mathContent))
    else
      let textParts := split_newlines part in
      fmap Arr (map_index (λ textPart textIndex,
        if decide (trim textPart = []) then Ok Null
        else inline ← renderMathInline textPart; Ok (P inline))
        textParts))
    parts;
  Ok (Fragment children).

(** The second branch of renderMath: the other cases. *)
Definition renderOther (text : jsstring) : result node :=
  let parts := split_newlines text in
  fmap Arr (map_index (λ part index,
    if includes begin_center part && includes begin_tabular part then
      match tabular_content part with
      | Some ((_ :: _) as tableContent) => Ok (TableEl tableContent)
      | _ => Ok (Text part)
      end
    else if decide (trim part = begin_center ∨ trim part = end_center) then
      Ok Null
    else inline ← renderMathInline part; Ok (P inline))
    parts).

(** renderMath *)
Definition renderMath (text : jsstring) : result node :=
  if includes display_open text && includes display_close text
  then renderDisplay text
  else renderOther text.

(** React calls the Table component for each of its elements when the
    tree is rendered; an exception of the component aborts the render. *)
Definition mount (n : node) : result (list node) :=
  mapM (λ c, match c with
             | TableEl content => Table content
             | _ => Ok c
             end) (flatten n).

End Render.

(** ** The quiz session *)

(** A record of the question bank (quiz.json), with the fields the
    component reads; all of them are strings. *)
Record Question := {
  subject : jsstring;
  type : jsstring;
  gold : jsstring;
  question : jsstring
}.

Definition MCQ_multiple : jsstring := lit "MCQ(multiple)".

(** The state cells of App (useState). *)
Record State := mkState {
  selectedSubject : option jsstring;
  startTime : option Z;
  questionStartTime : option Z;
  timePerQuestion : gmap nat Z;
  currentQuestion : nat;
  answers : gmap nat (list jsstring);
  showResults : bool;
  isReviewMode : bool
}.

Definition initial : State :=
  mkState None None None ∅ 0 ∅ false false.

Definition setAnswers (v : gmap nat (list jsstring)) (st : State) : State :=
  mkState (selectedSubject st) (startTime st) (questionStartTime st)
          (timePerQuestion st) (currentQuestion st) v (showResults st)
          (isReviewMode st).

Definition setTimePerQuestion (v : gmap nat Z) (st : State) : State :=
  mkState (selectedSubject st) (startTime st) (questionStartTime st)
          v (currentQuestion st) (answers st) (showResults st)
          (isReviewMode st).

Definition setCurrentQuestion (v : nat) (st : State) : State :=
  mkState (selectedSubject st) (startTime st) (questionStartTime st)
          (timePerQuestion st) v (answers st) (showResults st)
          (isReviewMode st).

Definition setShowResults (v : bool) (st : State) : State :=
  mkState (selectedSubject st) (startTime st) (questionStartTime st)
          (timePerQuestion st) (currentQuestion st) (answers st) v
          (isReviewMode st).

Definition setIsReviewMode (v : bool) (st : State) : State :=
  mkState (selectedSubject st) (startTime st) (questionStartTime st)
          (timePerQuestion st) (currentQuestion st) (answers st)
          (showResults st) v.

Definition setStartTime (v : option Z) (st : State) : State :=
  mkState (selectedSubject st) v (questionStartTime st)
          (timePerQuestion st) (currentQuestion st) (answers st)
          (showResults st) (isReviewMode st).

Definition setQuestionStartTime (v : option Z) (st : State) : State :=
  mkState (selectedSubject st) (startTime st) v
          (timePerQuestion st) (currentQuestion st) (answers st)
          (showResults st) (isReviewMode st).

Definition setSelectedSubject (v : option jsstring) (st : State) : State :=
  mkState v (startTime st) (questionStartTime st)
          (timePerQuestion st) (currentQuestion st) (answers st)
          (showResults st) (isReviewMode st).

(** A number or null used as a condition. *)
Definition truthy_time (t : option Z) : bool :=
  match t with
  | Some v => negb (v =? 0)%Z
  | None => false
  end.

(** A string or null used as a condition. *)
Definition truthy_string (s : option jsstring) : bool :=
  match s with
  | Some (_ :: _) => true
  | _ => false
  end.

(** handleAnswer; [now] is the value of Date.now(). *)
Definition handleAnswer (now : Z) (answer : jsstring) (st : State) : State :=
  let st1 :=
    if truthy_time (questionStartTime st) then
      let timeSpent := (now - default 0 (questionStartTime st))%Z in
      setTimePerQuestion (<[currentQuestion st := timeSpent]> (timePerQuestion st)) st
    else st in
  setAnswers (<[currentQuestion st := [answer]]> (answers st)) st1.

(** handleMultiAnswer *)
Definition handleMultiAnswer (answer : jsstring) (st : State) : State :=
  let currentAnswers := default [] (answers st !! currentQuestion st) in
  let newAnswers :=
    if bool_decide (answer ∈ currentAnswers)
    then filter (λ a, a ≠ answer) currentAnswers
    else sort (currentAnswers ++ [answer]) in
  setAnswers (<[currentQuestion st := newAnswers]> (answers st)) st.

(** handleNext *)
Definition handleNext (questions : list Question) (st : State) : State :=
  if bool_decide (currentQuestion st < length questions - 1)
  then setCurrentQuestion (currentQuestion st + 1) st
  else setShowResults true st.

(** calculateScore *)
Definition calculateScore (questions : list Question)
    (answers : gmap nat (list jsstring)) : nat :=
  forEach (λ q index score,
    let userAnswer := default [] (answers !! index) in
    if decide (type q = MCQ_multiple) then
      if decide (join_empty userAnswer = gold q) then S score else score
    else
      if decide (userAnswer !! 0 = Some (gold q)) then S score else score)
    questions 0.

(** *** Sampling the questions of a subject *)

Section Sampling.

(** [quizData.questions] *)
Variable quizData_questions : list Question.

(** The state of Math.random and [a.sort(() => Math.random() - 0.5)]:
    the order a sort leaves its array in under a comparator that answers
    at random depends on the engine. *)
Context {rng : Type}.
Variable sort_random : list Question → rng → list Question * rng.

(** The function memoised as filteredQuestions. *)
Definition filteredQuestions (selectedSubject : option jsstring) (g : rng)
  : list Question * rng :=
  match selectedSubject with
  | Some ((_ :: _) as chosen) =>
      let subjectQuestions :=
        filter (λ q, subject q = chosen) quizData_questions in
      let '(sorted, g') := sort_random subjectQuestions g in
      (take 20 sorted, g')
  | _ => ([], g)
  end.

(** useMemo with one dependency: the cell keeps the dependency and the
    value of the last calculation. *)
Definition useMemo {V} (cell : option (option jsstring * V))
    (calculate : rng → V * rng) (dep : option jsstring) (g : rng)
  : V * option (option jsstring * V) * rng :=
  match cell with
  | Some (dep', v) =>
      if decide (dep' = dep) then (v, cell, g)
      else let '(v', g') := calculate g in (v', Some (dep, v'), g')
  | None => let '(v', g') := calculate g in (v', Some (dep, v'), g')
  end.

(** A mounted App: its state, the memo cell of filteredQuestions, the
    random source, and the questions of the last render. *)
Record Session := mkSession {
  state : State;
  memo : option (option jsstring * list Question);
  random : rng;
  questions : list Question
}.

(** One render of App: the hooks before the first return. *)
Definition render (st : State) (cell : option (option jsstring * list Question))
    (g : rng) : Session :=
  let '(qs, cell', g') :=
    useMemo cell (filteredQuestions (selectedSubject st)) (selectedSubject st) g in
  mkSession st cell' g' qs.

Definition mountApp (g : rng) : Session := render initial None g.

(** What happens to a mounted App: the user acts, or one of the two
    effects stamps a time.  Each event runs its handler on the state of
    the last render, and App renders again. *)
Inductive event :=
| SelectSubject (chosen : jsstring)
| QuizStarted (now : Z)
| QuestionStarted (now : Z)
| Answer (now : Z) (answer : jsstring)
| MultiAnswer (answer : jsstring)
| Next
| GoTo (value : nat)
| ReviewAnswers
| BackToResults.

Definition handle (e : event) (s : Session) : State :=
  let st := state s in
  match e with
  | SelectSubject chosen => setSelectedSubject (Some chosen) st
  | QuizStarted now =>
      if truthy_string (selectedSubject st) && negb (truthy_time (startTime st))
      then setStartTime (Some now) st else st
  | QuestionStarted now => setQuestionStartTime (Some now) st
  | Answer now answer => handleAnswer now answer st
  | MultiAnswer answer => handleMultiAnswer answer st
  | Next => handleNext (questions s) st
  | GoTo value =>
      if bool_decide (value < length (questions s))
      then setCurrentQuestion value st else st
  | ReviewAnswers => setIsReviewMode true st
  | BackToResults => setIsReviewMode false st
  end.

Definition step (s : Session) (e : event) : Session :=
  render (handle e s) (memo s) (random s).

Definition run (s : Session) (events : list event) : Session :=
  foldl step s events.

End Sampling.

(** One engine for the random sort, used to run the sampler: an insertion
    sort whose comparator draws from a list of coin flips (heads: the new
    element goes first). *)
Fixpoint insert_flip {A} (x : A) (l : list A) (coins : list bool)
  : list A * list bool :=
  match l with
  | [] => ([x], coins)
  | y :: l' =>
      match coins with
      | true :: coins' => (x :: l, coins')
      | false :: coins' =>
          let '(r, coins'') := insert_flip x l' coins' in (y :: r, coins'')
      | [] => (x :: l, [])
      end
  end.

Fixpoint sort_flip {A} (l : list A) (coins : list bool) : list A * list bool :=
  match l with
  | [] => ([], coins)
  | x :: l' =>
      let '(r, coins') := sort_flip l' coins in insert_flip x r coins'
  end.

(** ** Reading the rendered tree

    The values the render functions produce when nothing throws, and the
    blocks of a rendered body. *)

Section Reading.

Variable katex : bool → jsstring → result jsstring.

(** An inline expression handed to the typesetting engine. *)
Definition typeset (part : jsstring) : node :=
  match katex false part with
  | Ok html => SpanHtml html
  | Throw _ => SpanText part
  end.

(** The children of a text with inline math. *)
Definition inline (text : jsstring) : list node :=
  imap (λ index part, if Nat.even index then Text part else typeset part)
       (split dollar text).

(** The block of a display-math region with interior [inner]. *)
Definition display_block (inner : jsstring) : node :=
  match katex true (trim inner) with
  | Ok html => DisplayDiv html
  | Throw _ => DivText inner
  end.

(** Is this part of the display split a display-math region? *)
Definition is_region (part : jsstring) : bool :=
  startsWith display_open part && endsWith display_close part.

(** The node of a newline-separated segment next to a display-math
    region, and the node of a part of the display split. *)
Definition paragraph_node (segment : jsstring) : node :=
  if decide (trim segment = []) then Null else P (inline segment).

Definition part_node (part : jsstring) : node :=
  if is_region part
  then display_block (slice_2_m2 part)
  else Arr (paragraph_node <$> split_newlines part).

(** One paragraph per newline-separated segment that is not blank. *)
Definition paragraphs (text : jsstring) : list node :=
  omap (λ segment,
          if decide (trim segment = []) then None
          else Some (P (inline segment)))
       (split_newlines text).

(** The blocks of a rendered body, in order. *)
Definition blocks (r : result node) : result (list node) := flatten <$> r.

(** The node of a segment of a body under the rules for table markup,
    centre markers and paragraphs. *)
Definition segment_node (segment : jsstring) : node :=
  if includes begin_center segment && includes begin_tabular segment then
    match search begin_tabular segment with
    | Some (_, after) =>
        match search end_tabular after with
        | Some ((_ :: _) as content, _) => TableEl content
        | _ => Text segment
        end
    | None => Text segment
    end
  else if decide (trim segment = begin_center ∨ trim segment = end_center)
  then Null
  else P (inline segment).

(** The blocks of the display split of a text. *)
Definition display_blocks (text : jsstring) : list node :=
  flatten (Fragment (part_node <$> split_by display_match text)).

(** The display-math rule as the specification words it: regions become
    display blocks, and every part outside the regions goes through the
    remaining rules (newline split, table detection, centre markers,
    paragraphs). *)
Definition display_then_remaining_rules (text : jsstring) : list node :=
  mjoin ((λ part,
            if is_region part then [display_block (slice_2_m2 part)]
            else mjoin (flatten <$> (segment_node <$> split_newlines part)))
         <$> split_by display_match text).

End Reading.

(** The table extractor as the specification words it: candidate rows,
    surviving rows, cells, and header and body. *)
Definition candidate_rows (content : jsstring) : list jsstring :=
  split row_separator content.

Definition surviving_rows (content : jsstring) : list jsstring :=
  filter (λ row, ¬ (row = [] ∨ row = hline)) (trim <$> candidate_rows content).

Definition cells (row : jsstring) : list jsstring :=
  trim <$> split ampersand row.

Definition extract (content : jsstring)
  : option (list jsstring * list (list jsstring)) :=
  match surviving_rows content with
  | [] => None
  | header :: body => Some (cells header, cells <$> body)
  end.

(** Scoring as the specification words it: the judgement of one question
    against its answer record. *)
Definition judged_correct (q : Question) (record : list jsstring) : Prop :=
  if decide (type q = MCQ_multiple)
  then concat record = gold q
  else record !! 0 = Some (gold q).

Global Instance judged_correct_dec q record : Decision (judged_correct q record).
Proof. unfold judged_correct. destruct (decide (type q = MCQ_multiple)); apply _. Defined.

(** The answer record of the current question, and the record after a
    sequence of multi-answer toggles. *)
Definition record (st : State) : list jsstring :=
  default [] (answers st !! currentQuestion st).

Definition toggles (st : State) (options : list jsstring) : State :=
  foldl (λ s answer, handleMultiAnswer answer s) st options.

(** A separator that never matches the empty string: the text left after a
    match is shorter than the text the match was tried on. *)
Definition consuming (m : matcher) : Prop :=
  ∀ s captures rest, m s = Some (captures, rest) → length rest < length s.

(** Two typesetting engines to run the renderer with: one that returns the
    expression as its markup, one that throws on every expression. *)
Definition katex_echo : bool → jsstring → result jsstring := λ _ expression,
  Ok expression.

Definition katex_failing : bool → jsstring → result jsstring := λ _ _,
  Throw KatexError.

(** ** The typesetting engine and its option throwOnError

    KaTeX is a dependency of the component and no part of the repository:
    its parser and builder are a parameter [parse], which gives for a
    display mode and an expression the markup, a parse error with its
    message, or any other exception, and [renderError] is the markup the
    engine builds from the message of a parse error and the expression.
    [renderToString parse renderError throwOnError displayMode expression]
    is [katex.renderToString(expression, { throwOnError, displayMode })]:
    a parse error is thrown when throwOnError is set and returned as error
    markup when it is not; any other exception is thrown either way.  The
    renderer passes [throwOnError: false] at each of its calls. *)
Inductive outcome :=
| Markup (html : jsstring)
| ParseError (message : jsstring)
| OtherError (e : exn).

Definition renderToString (parse : bool → jsstring → outcome)
    (renderError : jsstring → jsstring → jsstring)
    (throwOnError displayMode : bool) (expression : jsstring)
  : result jsstring :=
  match parse displayMode expression with
  | Markup html => Ok html
  | ParseError message =>
      if throwOnError then Throw KatexError
      else Ok (renderError message expression)
  | OtherError e => Throw e
  end.

(** Two parsers to run the renderer with: one that rejects an expression
    ending in a superscript sign without its argument and returns every
    other expression as its markup, and one that always fails with an
    exception that is no parse error; and an error markup, the expression
    in a span that carries the message. *)
Definition parse_superscript : bool → jsstring → outcome := λ _ expression,
  if endsWith (lit "^") expression
  then ParseError (lit "Expected group after ^")
  else Markup expression.

Definition parse_crashing : bool → jsstring → outcome := λ _ _,
  OtherError KatexError.

Definition error_span (message expression : jsstring) : jsstring :=
  lit "<span class='katex-error' title='" ++ message ++ lit "'>" ++
  expression ++ lit "</span>".

(** A small bank to run the sampler on: five questions of one subject among
    seven. *)
Definition sample_question (subject name : string) : Question :=
  Build_Question (lit subject) (lit "MCQ") (lit "A") (lit name).

Definition sample_bank : list Question :=
  [sample_question "math" "1"; sample_question "phy" "2";
   sample_question "math" "3"; sample_question "math" "4";
   sample_question "chem" "5"; sample_question "math" "6";
   sample_question "math" "7"].

(** ** The review screen, the screens of App and the export

    The rest of the component: the judgement of the review screen, which
    compares JSON texts of sorted arrays, the screen App returns for a
    session, the condition of the Next button, and exportToPDF. *)

(** [s.split('')]: the code units of a string, each as a string. *)
Definition split_units (s : jsstring) : list jsstring := (λ c, [c]) <$> s.

(** *** JSON.stringify on an array of strings

    QuoteJSONString escapes the quotation mark, the backslash and the
    control characters, writes a surrogate that is not part of a pair as a
    \u escape, and copies every other code unit; the array is the quoted
    elements between brackets, separated by commas. *)

Definition hex_digit (d : N) : N :=
  if (d <? 10)%N then (48 + d)%N else (87 + d)%N.

Definition UnicodeEscape (c : N) : jsstring :=
  [92; 117; hex_digit ((c / 4096) mod 16); hex_digit ((c / 256) mod 16);
   hex_digit ((c / 16) mod 16); hex_digit (c mod 16)]%N.

Definition is_leading_surrogate (c : N) : bool :=
  ((55296 <=? c) && (c <=? 56319))%N.

Definition is_trailing_surrogate (c : N) : bool :=
  ((56320 <=? c) && (c <=? 57343))%N.

(** A code unit that is not the first half of a surrogate pair. *)
Definition quote_code_unit (c : N) : jsstring :=
  if (c =? 8)%N then lit "\b"
  else if (c =? 9)%N then lit "\t"
  else if (c =? 10)%N then lit "\n"
  else if (c =? 12)%N then lit "\f"
  else if (c =? 13)%N then lit "\r"
  else if (c =? 34)%N then [92; 34]%N
  else if (c =? 92)%N then lit "\\"
  else if (c <? 32)%N || is_leading_surrogate c || is_trailing_surrogate c
       then UnicodeEscape c
  else [c].

Fixpoint quote_body (s : jsstring) : jsstring :=
  match s with
  | [] => []
  | c :: s' =>
      match s' with
      | d :: s'' =>
          if is_leading_surrogate c && is_trailing_surrogate d
          then c :: d :: quote_body s''
          else quote_code_unit c ++ quote_body s'
      | [] => quote_code_unit c
      end
  end.

Definition QuoteJSONString (s : jsstring) : jsstring :=
  [34%N] ++ quote_body s ++ [34%N].

(** [JSON.stringify(a)] for an array of strings *)
Definition JSON_stringify (a : list jsstring) : jsstring :=
  lit "[" ++ join (lit ",") (QuoteJSONString <$> a) ++ lit "]".

(** Reading a quoted string back, after its opening quotation mark: the
    string, and the text after the closing quotation mark. *)
Definition from_hex_digit (h : N) : N :=
  if (h <? 58)%N then (h - 48)%N else (h - 87)%N.

Definition unescape (e : N) : N :=
  if (e =? 98)%N then 8%N
  else if (e =? 116)%N then 9%N
  else if (e =? 110)%N then 10%N
  else if (e =? 102)%N then 12%N
  else if (e =? 114)%N then 13%N
  else e.

Definition cons_read (c : N) (r : option (jsstring * jsstring))
  : option (jsstring * jsstring) :=
  match r with
  | Some (t, rest) => Some (c :: t, rest)
  | None => None
  end.

Fixpoint read_string (s : jsstring) : option (jsstring * jsstring) :=
  match s with
  | [] => None
  | c :: s' =>
      if (c =? 34)%N then Some ([], s')
      else if (c =? 92)%N then
        match s' with
        | [] => None
        | e :: s'' =>
            if (e =? 117)%N then
              match s'' with
              | h3 :: h2 :: h1 :: h0 :: r =>
                  cons_read
                    (((from_hex_digit h3 * 16 + from_hex_digit h2) * 16
                      + from_hex_digit h1) * 16 + from_hex_digit h0)%N
                    (read_string r)
              | _ => None
              end
            else cons_read (unescape e) (read_string s'')
        end
      else cons_read c (read_string s')
  end.

(** *** The review screen *)

(** isCorrect, of the review screen *)
Definition isCorrect (q : Question) (userAnswers : list jsstring) : bool :=
  bool_decide (JSON_stringify (sort userAnswers) =
               JSON_stringify (sort (split_units (gold q)))).

(** [userAnswers.sort()] sorts the array of the state in place: what the
    review screen leaves in the answers. *)
Definition review_sort (questions : list Question)
    (answers : gmap nat (list jsstring)) : gmap nat (list jsstring) :=
  forEach (λ q index m, alter sort index m) questions answers.

(** The judgements of the review screen, question by question. *)
Definition review (questions : list Question)
    (answers : gmap nat (list jsstring)) : list bool :=
  imap (λ index q, isCorrect q (default [] (answers !! index))) questions.

(** *** The screens of App *)

Inductive screen :=
| ResultsScreen (score total : nat)
| ReviewScreen (judgements : list bool)
| SubjectSelectionScreen
| QuizScreen (currentQ : Question).

(** The returns of App, in order; the quiz screen reads
    [currentQ.description], a TypeError when there is no current question. *)
Definition App_screen {rng} (s : @Session rng) : result screen :=
  let st := state s in
  let currentQ := questions s !! currentQuestion st in
  if showResults st && negb (isReviewMode st) then
    Ok (ResultsScreen (calculateScore (questions s) (answers st))
                      (length (questions s)))
  else if isReviewMode st then
    Ok (ReviewScreen (review (questions s) (answers st)))
  else if negb (truthy_string (selectedSubject st)) then
    Ok SubjectSelectionScreen
  else match currentQ with
       | Some q => Ok (QuizScreen q)
       | None => Throw TypeError
       end.

(** The Next button is disabled by [!answers[currentQuestion]]. *)
Definition nextDisabled (st : State) : bool :=
  bool_decide (answers st !! currentQuestion st = None).

(** *** exportToPDF

    The page element, the rasteriser and the document writer are the
    collaborators; [iso] is the text of [new Date().toISOString()] and
    [exporting] the flag of the state.  The result is the flag after the
    export and the names of the files saved. *)

Section PdfExport.

Context {element canvas : Type}.
Variable html2canvas : element → result canvas.
Variable save : canvas → jsstring → result unit.

(** The file name: the template literal around [iso.split('T')[0]]. *)
Definition pdf_name (iso : jsstring) : jsstring :=
  lit "quiz-review-"
  ++ default (lit "undefined") (split (lit "T") iso !! 0)
  ++ lit ".pdf".

Definition exportToPDF (reviewContent : option element) (iso : jsstring)
    (exporting : bool) : bool * list jsstring :=
  match reviewContent with
  | None => (exporting, [])
  | Some content =>
      let saved :=
        try_catch
          (image ← html2canvas content;
           _ ← save image (pdf_name iso);
           Ok [pdf_name iso])
          (λ error, Ok []) in
      (false, match saved with Ok names => names | Throw _ => [] end)
  end.

End PdfExport.

(** The number of occurrences of a code unit in a string. *)
Definition count_unit (c : N) (s : jsstring) : nat :=
  length (filter (λ x, x = c) s).

(** * Properties *)

(** ** The string builtins *)

Lemma startsWith_true p s : startsWith p s = true ↔ ∃ r, s = p ++ r.
Proof.
  revert s. induction p as [|a p IH]; intros [|b s]; simpl.
  - split; [by exists []|done].
  - split; [by eexists|done].
  - split; [done|]. by intros [r Hr].
  - rewrite andb_true_iff, N.eqb_eq, IH. split.
    + intros [-> [r ->]]. by exists r.
    + intros [r Hr]. simplify_eq. eauto.
Qed.

Lemma startsWith_app p r : startsWith p (p ++ r) = true.
Proof. apply startsWith_true. by exists r. Qed.

Lemma startsWith_false p s :
  startsWith p s = false ↔ ∀ r, s ≠ p ++ r.
Proof.
  split.
  - intros Hf r ->. by rewrite startsWith_app in Hf.
  - intros Hn. destruct (startsWith p s) eqn:E; [|done].
    apply startsWith_true in E as [r ->]. by destruct (Hn r).
Qed.

Lemma search_Some p s before after :
  search p s = Some (before, after) → s = before ++ p ++ after.
Proof.
  revert before after. induction s as [|c s IH]; intros before after; simpl.
  - destruct (startsWith p []) eqn:E; [|done].
    intros [= <- <-]. apply startsWith_true in E as [r Hr].
    symmetry in Hr. apply app_eq_nil in Hr as [-> ->]. done.
  - destruct (startsWith p (c :: s)) eqn:E.
    + intros [= <- <-]. apply startsWith_true in E as [r Hr].
      rewrite Hr at 1. simpl. rewrite Hr, drop_app_length. done.
    + destruct (search p s) as [[b a]|] eqn:Es; [|done].
      intros [= <- <-]. simpl. f_equal. by apply IH.
Qed.

(** The occurrence found is the first one. *)
Lemma search_first p s before after :
  search p s = Some (before, after) →
  ∀ b a, s = b ++ p ++ a → length before ≤ length b.
Proof.
  revert before after. induction s as [|c s IH]; intros before after; simpl.
  - destruct (startsWith p []); [|done]. intros [= <- <-] b a _. simpl. lia.
  - destruct (startsWith p (c :: s)) eqn:E.
    + intros [= <- <-] b a _. simpl. lia.
    + destruct (search p s) as [[b' a']|] eqn:Es; [|done].
      intros [= <- <-] b a Hs. destruct b as [|c' b].
      * simpl in Hs. rewrite Hs, startsWith_app in E. done.
      * simpl in Hs. injection Hs as -> Hs. simpl.
        specialize (IH _ _ eq_refl b a Hs). lia.
Qed.

Lemma search_None p s :
  search p s = None ↔ ∀ b a, s ≠ b ++ p ++ a.
Proof.
  induction s as [|c s IH]; simpl.
  - destruct (startsWith p []) eqn:E.
    + split; [done|]. intros Hn. apply startsWith_true in E as [r Hr].
      destruct (Hn [] r). done.
    + split; [|done]. intros _ b a Hs.
      symmetry in Hs. apply app_eq_nil in Hs as [-> Hs].
      apply app_eq_nil in Hs as [-> ->]. done.
  - destruct (startsWith p (c :: s)) eqn:E.
    + split; [done|]. intros Hn. apply startsWith_true in E as [r Hr].
      destruct (Hn [] r). done.
    + destruct (search p s) as [[b' a']|] eqn:Es.
      * split; [done|]. intros Hn. apply search_Some in Es.
        destruct (Hn (c :: b') a'). by rewrite Es.
      * split; [|done]. intros _ b a Hs. destruct b as [|c' b].
        -- simpl in Hs. rewrite Hs, startsWith_app in E. done.
        -- simpl in Hs. injection Hs as -> Hs.
           destruct IH as [IH _]. by apply (IH eq_refl b a).
Qed.

Lemma includes_true p s : includes p s = true ↔ ∃ b a, s = b ++ p ++ a.
Proof.
  unfold includes. destruct (search p s) as [[b a]|] eqn:E.
  - split; [|done]. intros _. apply search_Some in E. eauto.
  - split; [done|]. intros (b & a & Hs).
    destruct (proj1 (search_None p s) E b a Hs).
Qed.

Lemma search_unfold p s :
  search p s =
  if startsWith p s then Some ([], drop (length p) s)
  else match s with
       | [] => None
       | c :: s' =>
           match search p s' with
           | Some (before, after) => Some (c :: before, after)
           | None => None
           end
       end.
Proof. by destruct s. Qed.

(** The first occurrence of [p] in [b ++ p ++ a] is the one after [b] when
    [p] matches at no position inside [b]. *)
Lemma search_app_first p b a :
  (∀ i, i < length b → startsWith p (drop i (b ++ p ++ a)) = false) →
  search p (b ++ p ++ a) = Some (b, a).
Proof.
  intros Hno. induction b as [|c b IH].
  - simpl. rewrite search_unfold, startsWith_app, drop_app_length. done.
  - pose proof (Hno 0 ltac:(simpl; lia)) as H0. simpl in H0.
    rewrite search_unfold. simpl. rewrite H0.
    rewrite IH; [done|]. intros i Hi.
    apply (Hno (S i)). simpl. lia.
Qed.

Lemma search_None_cons p c s :
  search p (c :: s) = None → startsWith p (c :: s) = false ∧ search p s = None.
Proof.
  rewrite search_unfold. destruct (startsWith p (c :: s)); [done|].
  by destruct (search p s) as [[??]|].
Qed.

Lemma startsWith_before_unit q l (a : N) r :
  a ∉ q → startsWith q (l ++ a :: r) = true → startsWith q l = true.
Proof.
  revert l. induction q as [|x q IH]; intros l Ha; [done|].
  destruct l as [|y l]; simpl.
  - rewrite andb_true_iff, N.eqb_eq. intros [-> _]. destruct Ha. by left.
  - rewrite !andb_true_iff. intros [? ?]. split; [done|]. apply IH; [|done].
    intros ?. apply Ha. by right.
Qed.

(** A marker whose first code unit occurs nowhere else in it cannot overlap
    itself: when it does not occur in a text, it does not match inside the
    text when the marker follows. *)
Lemma marker_not_inside (a : N) (p' inner rest : jsstring) i :
  a ∉ p' →
  search (a :: p') inner = None →
  i < length inner →
  startsWith (a :: p') (drop i (inner ++ (a :: p') ++ rest)) = false.
Proof.
  intros Ha. revert i. induction inner as [|c inner IH]; intros i Hno Hi.
  { simpl in Hi. lia. }
  apply search_None_cons in Hno as [Hhere Hno].
  destruct i as [|i].
  - simpl in *. destruct (a =? c)%N; [simpl in *|done].
    destruct (startsWith p' (inner ++ a :: p' ++ rest)) eqn:E; [|done].
    apply startsWith_before_unit in E; [congruence|done].
  - simpl. apply IH; [done|]. simpl in Hi. lia.
Qed.

Lemma search_marker_app (a : N) (p' before after : jsstring) :
  a ∉ p' →
  search (a :: p') before = None →
  search (a :: p') (before ++ (a :: p') ++ after) = Some (before, after).
Proof.
  intros Ha Hno. apply search_app_first. intros i Hi.
  by apply marker_not_inside.
Qed.

(** ** split *)

Section SplitFacts.

Variable m : matcher.
Hypothesis m_consuming : consuming m.

(** The fuel of [split_by] is enough: more fuel changes nothing. *)
Lemma split_loop_fuel fuel1 fuel2 s :
  length s < fuel1 → length s < fuel2 →
  split_loop fuel1 m s = split_loop fuel2 m s.
Proof using m_consuming.
  revert fuel2 s. induction fuel1 as [|fuel1 IH]; intros [|fuel2] s H1 H2;
    try lia.
  simpl. destruct s as [|c s]; [done|].
  destruct (m (c :: s)) as [[captures rest]|] eqn:E.
  - apply m_consuming in E. simpl in *. do 2 f_equal. apply IH; lia.
  - simpl in *. f_equal. apply IH; lia.
Qed.

Lemma split_loop_S fuel s :
  split_loop (S fuel) m s =
  match s with
  | [] => [[]]
  | c :: s' =>
      match m s with
      | Some (captures, rest) => [] :: captures ++ split_loop fuel m rest
      | None => cons_hd c (split_loop fuel m s')
      end
  end.
Proof. done. Qed.

Lemma split_by_nil : split_by m [] = [[]].
Proof. done. Qed.

Lemma split_by_cons c s :
  split_by m (c :: s) =
  match m (c :: s) with
  | Some (captures, rest) => [] :: captures ++ split_by m rest
  | None => cons_hd c (split_by m s)
  end.
Proof using m_consuming.
  unfold split_by. rewrite split_loop_S.
  destruct (m (c :: s)) as [[captures rest]|] eqn:E; [|done].
  apply m_consuming in E. do 2 f_equal.
  apply split_loop_fuel; simpl in *; lia.
Qed.

Lemma split_by_nonempty s : split_by m s ≠ [].
Proof using m_consuming.
  induction s as [|c s IH]; [done|]. rewrite split_by_cons.
  destruct (m (c :: s)) as [[captures rest]|]; [done|].
  by destruct (split_by m s).
Qed.

(** Text in front of which the separator matches nowhere stays in front
    of the first piece. *)
Lemma split_by_skip pre s :
  (∀ i, i < length pre → m (drop i (pre ++ s)) = None) →
  split_by m (pre ++ s) =
  match split_by m s with
  | [] => []
  | p :: ps => (pre ++ p) :: ps
  end.
Proof using m_consuming.
  intros Hno. induction pre as [|c pre IH]; simpl.
  - by destruct (split_by m s).
  - rewrite split_by_cons.
    pose proof (Hno 0 ltac:(simpl; lia)) as H0. simpl in H0. rewrite H0.
    rewrite IH.
    + by destruct (split_by m s).
    + intros i Hi. apply (Hno (S i)). simpl. lia.
Qed.

Lemma split_by_no_match s :
  (∀ i, i < length s → m (drop i s) = None) → split_by m s = [s].
Proof using m_consuming.
  intros Hno. rewrite <- (app_nil_r s) at 1. rewrite split_by_skip.
  - by rewrite split_by_nil, app_nil_r.
  - intros i Hi. rewrite app_nil_r. by apply Hno.
Qed.

End SplitFacts.

Lemma sep_match_consuming sep : sep ≠ [] → consuming (sep_match sep).
Proof.
  intros Hsep s captures rest. unfold sep_match.
  destruct (startsWith sep s) eqn:E; [|done]. intros [= <- <-].
  apply startsWith_true in E as [r ->].
  rewrite drop_app_length, length_app. destruct sep; [done|simpl; lia].
Qed.

Lemma drop_newlines_length s : length (drop_newlines s) ≤ length s.
Proof.
  induction s as [|c s IH]; simpl; [lia|].
  destruct (c =? nl)%N; simpl; lia.
Qed.

Lemma newlines_match_consuming : consuming newlines_match.
Proof.
  intros [|c s] captures rest; simpl; [done|].
  destruct (c =? nl)%N; [|done]. intros [= <- <-].
  pose proof (drop_newlines_length s). lia.
Qed.

Lemma display_match_consuming : consuming display_match.
Proof.
  intros s captures rest. unfold display_match.
  destruct (startsWith display_open s); [|done].
  destruct (search display_close (drop 2 s)) as [[inner r]|] eqn:E; [|done].
  intros [= <- <-]. apply search_Some in E.
  assert (length (drop 2 s) = length (inner ++ display_close ++ r)) as Hl
    by by rewrite E.
  rewrite length_drop, !length_app in Hl. simpl in Hl. lia.
Qed.

(** The equations of [s.split(sep)]. *)
Lemma split_nil sep : split sep [] = [[]].
Proof. done. Qed.

Lemma split_cons sep c s :
  sep ≠ [] →
  split sep (c :: s) =
  if startsWith sep (c :: s) then [] :: split sep (drop (length sep) (c :: s))
  else cons_hd c (split sep s).
Proof.
  intros Hsep. unfold split. rewrite split_by_cons by by apply sep_match_consuming.
  unfold sep_match at 1. by destruct (startsWith sep (c :: s)).
Qed.

(** Joining the pieces with the separator gives the string back, the first
    piece is a prefix of the string, and no piece contains the separator. *)
Lemma split_pieces sep s :
  sep ≠ [] →
  join sep (split sep s) = s ∧
  (∃ p ps, split sep s = p :: ps ∧ ∃ r, s = p ++ r) ∧
  Forall (λ p, search sep p = None) (split sep s).
Proof.
  intros Hsep. remember (length s) as n eqn:Hn. revert s Hn.
  induction n as [n IH] using lt_wf_ind. intros s ->.
  assert (search sep [] = None) as Hnil.
  { rewrite search_unfold. destruct sep; done. }
  destruct s as [|c s].
  { rewrite split_nil. repeat split; [|by constructor]. exists [], []. split; [done|by exists []]. }
  rewrite split_cons by done. destruct (startsWith sep (c :: s)) eqn:E.
  - apply startsWith_true in E as [r Hr]. rewrite Hr, drop_app_length.
    assert (length r < length (c :: s)) as Hlt.
    { rewrite Hr, length_app. destruct sep; [done|simpl; lia]. }
    destruct (IH _ Hlt r eq_refl) as (Hj & (p & ps & Hp & _) & Hf).
    repeat split.
    + rewrite Hp in *. simpl. simpl in Hj. by rewrite Hj.
    + exists [], (split sep r). split; [done|]. by eexists.
    + by constructor.
  - assert (length s < length (c :: s)) as Hlt by (simpl; lia).
    destruct (IH _ Hlt s eq_refl) as (Hj & (p & ps & Hp & r & Hr) & Hf).
    rewrite Hp in *. simpl. repeat split.
    + destruct ps; simpl in *; by rewrite Hj.
    + exists (c :: p), ps. split; [done|]. exists r. by rewrite Hr.
    + apply Forall_cons in Hf as [Hf1 Hf2]. constructor; [|done].
      rewrite search_unfold.
      assert (startsWith sep (c :: p) = false) as ->.
      { apply startsWith_false. intros r' Hr'.
        apply (proj1 (startsWith_false sep (c :: s)) E (r' ++ r)).
        rewrite Hr, app_assoc, <- Hr'. done. }
      by rewrite Hf1.
Qed.

(** ** The render functions never throw for the typesetting engine *)

Lemma map_index_from_pure {A B} (f : A → nat → result B) (g : nat → A → B) k l :
  (∀ x i, f x i = Ok (g i x)) →
  map_index_from f k l = Ok (imap (λ i, g (k + i)) l).
Proof.
  intros Hf. revert k. induction l as [|x l IH]; intros k; simpl; [done|].
  rewrite Hf, IH. simpl. rewrite Nat.add_0_r. do 2 f_equal.
  apply imap_ext. intros i y _. simpl. f_equal. lia.
Qed.

Lemma map_index_pure {A B} (f : A → nat → result B) (g : nat → A → B) l :
  (∀ x i, f x i = Ok (g i x)) → map_index f l = Ok (imap g l).
Proof. intros Hf. unfold map_index. by rewrite (map_index_from_pure f g). Qed.

Lemma mapM_pure {A B} (f : A → result B) (g : A → B) l :
  (∀ x, f x = Ok (g x)) → mapM f l = Ok (g <$> l).
Proof.
  intros Hf. induction l as [|x l IH]; simpl; [done|].
  by rewrite Hf, IH.
Qed.

Lemma imap_ignore {A B} (g : A → B) (l : list A) : imap (λ _, g) l = g <$> l.
Proof. apply (imap_const g). Qed.

Lemma even_mod2 i :
  Nat.even i = if decide (i `mod` 2 = 1) then false else true.
Proof.
  pose proof (Nat.bit0_mod i) as H. rewrite Nat.bit0_odd in H.
  rewrite <- Nat.negb_odd.
  destruct (Nat.odd i), (decide (i `mod` 2 = 1)); simpl in *; congruence.
Qed.

Section RenderFacts.

Variable katex : bool → jsstring → result jsstring.

Lemma renderMathInline_Ok text :
  renderMathInline katex text = Ok (inline katex text).
Proof.
  unfold renderMathInline, inline. apply map_index_pure. intros part i.
  unfold typeset, try_catch. rewrite (even_mod2 i).
  destruct (decide (i `mod` 2 = 1)); [|done].
  by destruct (katex false part).
Qed.

Lemma renderDisplay_Ok text :
  renderDisplay katex text =
  Ok (Fragment (part_node katex <$> split_by display_match text)).
Proof.
  unfold renderDisplay.
  rewrite (map_index_pure _ (λ _, part_node katex)); [by rewrite imap_ignore|].
  intros part i. unfold part_node, is_region, display_block, try_catch.
  destruct (startsWith display_open part && endsWith display_close part).
  - by destruct (katex true (trim (slice_2_m2 part))).
  - rewrite (map_index_pure _ (λ _, paragraph_node katex)); [by rewrite imap_ignore|].
    intros segment j. unfold paragraph_node.
    destruct (decide (trim segment = [])); [done|].
    by rewrite renderMathInline_Ok.
Qed.

Lemma renderOther_Ok text :
  renderOther katex text =
  Ok (Arr (segment_node katex <$> split_newlines text)).
Proof.
  unfold renderOther.
  rewrite (map_index_pure _ (λ _, segment_node katex)); [by rewrite imap_ignore|].
  intros part i. unfold segment_node, tabular_content.
  destruct (includes begin_center part && includes begin_tabular part).
  - destruct (search begin_tabular part) as [[? after]|]; [|done].
    destruct (search end_tabular after) as [[[|] ?]|]; done.
  - destruct (decide (trim part = begin_center ∨ trim part = end_center)); [done|].
    by rewrite renderMathInline_Ok.
Qed.

Lemma renderMath_Ok text :
  renderMath katex text =
  Ok (if includes display_open text && includes display_close text
      then Fragment (part_node katex <$> split_by display_match text)
      else Arr (segment_node katex <$> split_newlines text)).
Proof.
  unfold renderMath.
  destruct (includes display_open text && includes display_close text);
    [apply renderDisplay_Ok | apply renderOther_Ok].
Qed.

(** The Table component throws only for want of a header row. *)
Lemma Table_Ok content header body :
  Table_rows content = header :: body →
  Table katex content =
  Ok (TableView (inline katex <$> (trim <$> split ampersand header))
                ((λ row, inline katex <$> (trim <$> split ampersand row))
                   <$> body)).
Proof.
  intros Hrows. unfold Table. rewrite Hrows. simpl.
  rewrite (mapM_pure _ (inline katex)) by apply renderMathInline_Ok. simpl.
  rewrite (mapM_pure _ (λ row, inline katex <$> (trim <$> split ampersand row))).
  - done.
  - intros row. rewrite (mapM_pure _ (λ cell, inline katex (trim cell))).
    + by rewrite <- list_fmap_compose.
    + intros cell. apply renderMathInline_Ok.
Qed.

Lemma Table_no_rows content :
  Table_rows content = [] → Table katex content = Throw TypeError.
Proof. intros Hrows. unfold Table. by rewrite Hrows. Qed.

End RenderFacts.

(** ** Inline math *)

(** C3. Inline-math resolution splits the text on the dollar sign: the
    pieces joined by dollar signs are the text and none contains a dollar
    sign; the renderer returns one node per piece, in order; a piece at an
    even index is literal text and a piece at an odd index is handed to the
    typesetting engine in inline mode.  For the text a $x^2$ b the literals
    are "a " and " b" and the engine receives x^2. *)
Theorem inline_math_fragments katex text :
  join dollar (split dollar text) = text ∧
  Forall (λ part, includes dollar part = false) (split dollar text) ∧
  (∃ nodes,
     renderMathInline katex text = Ok nodes ∧
     length nodes = length (split dollar text) ∧
     ∀ i part, split dollar text !! i = Some part →
       nodes !! i = Some (if Nat.even i then Text part
                          else match katex false part with
                               | Ok html => SpanHtml html
                               | Throw _ => SpanText part
                               end)) ∧
  renderMathInline katex (lit "a $x^2$ b") =
    Ok [Text (lit "a ");
        match katex false (lit "x^2") with
        | Ok html => SpanHtml html
        | Throw _ => SpanText (lit "x^2")
        end;
        Text (lit " b")].
Proof.
  destruct (split_pieces dollar text ltac:(done)) as (Hjoin & _ & Hno).
  split; [done|]. split.
  { eapply Forall_impl; [exact Hno|]. intros part Hp. unfold includes. by rewrite Hp. }
  split.
  - exists (inline katex text). split; [apply renderMathInline_Ok|].
    unfold inline. split; [apply length_imap|].
    intros i part Hi. by rewrite list_lookup_imap, Hi.
  - rewrite renderMathInline_Ok. done.
Qed.

Lemma inline_math_fragments_witness :
  ∃ nodes,
    renderMathInline katex_echo (lit "a $x^2$ b") = Ok nodes ∧
    nodes !! 1 = Some (SpanHtml (lit "x^2")).
Proof.
  destruct (inline_math_fragments katex_echo (lit "a $x^2$ b"))
    as (_ & _ & (nodes & Hr & _ & Hn) & _).
  exists nodes. split; [exact Hr|].
  apply (Hn 1 (lit "x^2")). reflexivity.
Defined.

(** ** The Table component *)

Lemma surviving_rows_Table_rows content :
  surviving_rows content = Table_rows content.
Proof.
  unfold surviving_rows, Table_rows, candidate_rows.
  apply list_filter_iff. intros row. tauto.
Qed.

(** C4. The table extractor: the candidate rows are the pieces of the input
    between occurrences of the two-backslash sequence; the rows that survive
    are the trimmed candidates other than the empty string and \hline; the
    cells of a row are the trimmed pieces between its ampersands; the
    component renders the cells of the first surviving row as the header and
    the cells of the following surviving rows as the body, in order. *)
Theorem table_extraction katex (content : jsstring)
    (header : list jsstring) (body : list (list jsstring)) :
  extract content = Some (header, body) →
  join row_separator (candidate_rows content) = content ∧
  Forall (λ row, includes row_separator row = false) (candidate_rows content) ∧
  (∃ (first : jsstring) (rest : list jsstring),
     filter (λ row, row ≠ [] ∧ row ≠ hline) (trim <$> candidate_rows content)
       = first :: rest ∧
     header = trim <$> split ampersand first ∧
     body = (λ row, trim <$> split ampersand row) <$> rest) ∧
  Table katex content =
    Ok (TableView (inline katex <$> header)
                  ((λ row : list jsstring, inline katex <$> row) <$> body)).
Proof.
  intros Hex.
  destruct (split_pieces row_separator content ltac:(done)) as (Hjoin & _ & Hno).
  split; [done|]. split.
  { eapply Forall_impl; [exact Hno|]. intros row Hp. unfold includes. by rewrite Hp. }
  unfold extract in Hex.
  destruct (surviving_rows content) as [|first rest] eqn:Hrows; [done|].
  injection Hex as <- <-. split.
  - exists first, rest. split; [|done]. rewrite <- Hrows.
    unfold surviving_rows. apply list_filter_iff. intros row. tauto.
  - rewrite surviving_rows_Table_rows in Hrows.
    rewrite (Table_Ok katex content first rest Hrows).
    unfold cells. do 2 f_equal. by rewrite <- list_fmap_compose.
Qed.

Lemma table_extraction_witness :
  Table katex_echo (lit "\hline a & b \\ \hline 1 & 2 \\ 3 & 4 \\ \hline") =
  Ok (TableView
        [[Text (lit "\hline a")]; [Text (lit "b")]]
        [[[Text (lit "\hline 1")]; [Text (lit "2")]];
         [[Text (lit "3")]; [Text (lit "4")]]]).
Proof.
  refine (proj2 (proj2 (proj2 (table_extraction katex_echo
    (lit "\hline a & b \\ \hline 1 & 2 \\ 3 & 4 \\ \hline")
    [lit "\hline a"; lit "b"]
    [[lit "\hline 1"; lit "2"]; [lit "3"; lit "4"]] _)))).
  vm_compute. reflexivity.
Defined.

(** C5. A table region without a surviving row: the component reads
    [rows[0].split] off an empty array, which is a TypeError of the runtime;
    no condition of the component guards the header row.  The region
    \hline and the region of separators and blanks both end this way, and
    so does the render of a question body that carries such a table. *)
Theorem Table_without_rows_TypeError :
  (∀ katex, Table katex (lit "\hline") = Throw TypeError) ∧
  (∀ katex, Table katex (lit " \\ \hline \\ ") = Throw TypeError) ∧
  (∀ katex,
     renderMath katex
       (lit "\begin{center}\begin{tabular}\hline\end{tabular}\end{center}")
     ≫= mount katex = Throw TypeError).
Proof.
  split; [|split]; intros katex.
  - by apply Table_no_rows.
  - by apply Table_no_rows.
  - rewrite renderMath_Ok. vm_compute. reflexivity.
Qed.

(** ** The segments of a body without display math *)

Lemma split_newlines_cons c s :
  split_newlines (c :: s) =
  if (c =? nl)%N then [] :: split_newlines (drop_newlines s)
  else cons_hd c (split_newlines s).
Proof.
  unfold split_newlines. rewrite split_by_cons by apply newlines_match_consuming.
  simpl. by destruct (c =? nl)%N.
Qed.

(** No segment contains a line feed. *)
Lemma split_newlines_no_nl s : Forall (λ segment, nl ∉ segment) (split_newlines s).
Proof.
  remember (length s) as n eqn:Hn. revert s Hn.
  induction n as [n IH] using lt_wf_ind. intros [|c s] ->.
  { repeat constructor. by intros ?%elem_of_nil. }
  rewrite split_newlines_cons. destruct (c =? nl)%N eqn:E.
  - constructor; [by intros ?%elem_of_nil|].
    pose proof (drop_newlines_length s).
    eapply (IH (length (drop_newlines s))); [simpl; lia|done].
  - assert (Forall (λ segment, nl ∉ segment) (split_newlines s)) as Hs.
    { eapply (IH (length s)); [simpl; lia|done]. }
    destruct (split_newlines s) as [|p ps]; [done|].
    apply Forall_cons in Hs as [Hp Hps]. constructor; [|done].
    intros [Hc|?]%elem_of_cons; [|done].
    rewrite <- Hc in E. by rewrite N.eqb_refl in E.
Qed.

Lemma search_begin_tabular pre rest :
  search begin_tabular pre = None →
  search begin_tabular (pre ++ begin_tabular ++ rest) = Some (pre, rest).
Proof.
  intros Hno.
  by apply (search_marker_app 92 (lit "begin{tabular}") pre rest ltac:(compute_done)).
Qed.

Lemma search_end_tabular content rest :
  search end_tabular content = None →
  search end_tabular (content ++ end_tabular ++ rest) = Some (content, rest).
Proof.
  intros Hno.
  by apply (search_marker_app 92 (lit "end{tabular}") content rest ltac:(compute_done)).
Qed.

(** The node of a segment, case by case. *)
Lemma segment_node_cases katex segment :
  if includes begin_center segment && includes begin_tabular segment then
    (∀ pre content post,
       segment = pre ++ begin_tabular ++ content ++ end_tabular ++ post →
       search begin_tabular pre = None →
       search end_tabular content = None →
       segment_node katex segment =
         match content with [] => Text segment | _ :: _ => TableEl content end) ∧
    ((∀ pre content post,
        segment ≠ pre ++ begin_tabular ++ content ++ end_tabular ++ post) →
     segment_node katex segment = Text segment)
  else if decide (trim segment = begin_center ∨ trim segment = end_center)
  then segment_node katex segment = Null
  else segment_node katex segment = P (inline katex segment).
Proof.
  unfold segment_node.
  destruct (includes begin_center segment && includes begin_tabular segment).
  - split.
    + intros pre content post -> Hpre Hcontent.
      rewrite search_begin_tabular, search_end_tabular by done.
      by destruct content.
    + intros Hnone.
      destruct (search begin_tabular segment) as [[pre after]|] eqn:Hb; [|done].
      destruct (search end_tabular after) as [[content post]|] eqn:He.
      * apply search_Some in Hb, He. destruct (Hnone pre content post).
        by rewrite Hb, He.
      * done.
  - by destruct (decide (trim segment = begin_center ∨ trim segment = end_center)).
Qed.

(** C2, as the code has it.  A body that does not contain both display
    markers is split on runs of line feeds, and the renderer returns one
    node per segment, in order.  A segment with the centre-begin and the
    tabular-begin marker becomes a Table element when a tabular-end marker
    follows the first tabular-begin marker and the text between the two is
    not empty, and that text is the content of the table; without an end
    marker, or with nothing between the markers, the segment is returned as
    raw text.  Any other segment whose trimmed text is the centre-begin or
    the centre-end marker gives null, and every other segment gives one
    paragraph. *)
Theorem other_cases_segments katex text :
  includes display_open text && includes display_close text = false →
  Forall (λ segment, nl ∉ segment) (split_newlines text) ∧
  ∃ nodes,
    renderMath katex text = Ok (Arr nodes) ∧
    length nodes = length (split_newlines text) ∧
    ∀ i segment, split_newlines text !! i = Some segment →
      ∃ node, nodes !! i = Some node ∧
        if includes begin_center segment && includes begin_tabular segment then
          (∀ pre content post,
             segment = pre ++ begin_tabular ++ content ++ end_tabular ++ post →
             search begin_tabular pre = None →
             search end_tabular content = None →
             node = match content with
                    | [] => Text segment
                    | _ :: _ => TableEl content
                    end) ∧
          ((∀ pre content post,
              segment ≠ pre ++ begin_tabular ++ content ++ end_tabular ++ post) →
           node = Text segment)
        else if decide (trim segment = begin_center ∨ trim segment = end_center)
        then node = Null
        else node = P (inline katex segment).
Proof.
  intros Hno. split; [apply split_newlines_no_nl|].
  exists (segment_node katex <$> split_newlines text).
  rewrite renderMath_Ok, Hno. split; [done|]. split; [apply length_fmap|].
  intros i segment Hi. exists (segment_node katex segment).
  split; [by rewrite list_lookup_fmap, Hi|]. apply segment_node_cases.
Qed.

Lemma other_cases_segments_witness :
  Forall (λ segment, nl ∉ segment)
         (split_newlines (lit "\end{center}" ++ [nl; nl] ++ lit "So $x$ is")) ∧
  ∃ nodes,
    renderMath katex_echo (lit "\end{center}" ++ [nl; nl] ++ lit "So $x$ is")
      = Ok (Arr nodes) ∧
    nodes !! 0 = Some Null ∧
    nodes !! 1 = Some (P [Text (lit "So "); SpanHtml (lit "x"); Text (lit " is")]).
Proof.
  destruct (other_cases_segments katex_echo
              (lit "\end{center}" ++ [nl; nl] ++ lit "So $x$ is"))
    as (Hnl & nodes & Hr & _ & Hn); [vm_compute; reflexivity|].
  split; [exact Hnl|]. exists nodes. split; [exact Hr|]. split.
  - destruct (Hn 0 (lit "\end{center}")) as (node & -> & Hnode);
      [vm_compute; reflexivity|].
    vm_compute in Hnode. by rewrite Hnode.
  - destruct (Hn 1 (lit "So $x$ is")) as (node & -> & Hnode);
      [vm_compute; reflexivity|].
    vm_compute in Hnode. rewrite Hnode. vm_compute. reflexivity.
Defined.

Example table_segment :
  renderMath katex_echo
    (lit "\begin{center}\begin{tabular}a & b\end{tabular}\end{center}") =
  Ok (Arr [TableEl (lit "a & b")]).
Proof. vm_compute. reflexivity. Qed.

(** C2 as the specification states it fails: a table written over several
    lines has a first segment with both markers and no end marker, and that
    segment is returned as raw text, not as a table. *)
Lemma table_segment_without_end_is_text :
  let segment := lit "\begin{center}\begin{tabular}{cc}" in
  let text := segment ++ [nl] ++ lit "a & b \\" ++ [nl]
              ++ lit "\end{tabular}\end{center}" in
  includes display_open text && includes display_close text = false ∧
  split_newlines text !! 0 = Some segment ∧
  includes begin_center segment = true ∧
  includes begin_tabular segment = true ∧
  ∀ katex, ∃ nodes,
    renderMath katex text = Ok (Arr nodes) ∧
    nodes !! 0 = Some (Text segment) ∧
    ∀ content, nodes !! 0 ≠ Some (TableEl content).
Proof.
  repeat split; try (vm_compute; reflexivity).
  intros katex. rewrite renderMath_Ok.
  eexists. split; [vm_compute; reflexivity|].
  split; [vm_compute; reflexivity|]. intros content. vm_compute. discriminate.
Qed.

(** ** Display math *)

Lemma display_match_region inner post :
  search display_close inner = None →
  display_match (display_open ++ inner ++ display_close ++ post) =
  Some ([display_open ++ inner ++ display_close], post).
Proof.
  intros Hno. unfold display_match. rewrite startsWith_app.
  change (drop 2 (display_open ++ inner ++ display_close ++ post))
    with (inner ++ display_close ++ post).
  pose proof (search_marker_app 92 [93%N] inner post ltac:(compute_done) Hno)
    as Hs.
  change [92%N; 93%N] with display_close in Hs. by rewrite Hs.
Qed.

Lemma display_match_before pre rest i :
  search display_open pre = None →
  i < length pre →
  display_match (drop i (pre ++ display_open ++ rest)) = None.
Proof.
  intros Hno Hi. unfold display_match.
  pose proof (marker_not_inside 92 [91%N] pre rest i ltac:(compute_done) Hno Hi)
    as Hs.
  change [92%N; 91%N] with display_open in Hs. by rewrite Hs.
Qed.

Lemma split_display_region pre inner post :
  search display_open pre = None →
  search display_close inner = None →
  split_by display_match (pre ++ display_open ++ inner ++ display_close ++ post) =
  pre :: (display_open ++ inner ++ display_close) :: split_by display_match post.
Proof.
  intros Hpre Hinner.
  rewrite split_by_skip; [|apply display_match_consuming|].
  2:{ intros i Hi. by apply display_match_before. }
  change (display_open ++ inner ++ display_close ++ post)
    with (92%N :: (91%N :: inner ++ display_close ++ post)).
  rewrite split_by_cons by apply display_match_consuming.
  change (92%N :: (91%N :: inner ++ display_close ++ post))
    with (display_open ++ inner ++ display_close ++ post).
  rewrite display_match_region by done. simpl. by rewrite app_nil_r.
Qed.

(** A part that starts with the opening marker and ends with the closing
    marker has room for both. *)
Lemma is_region_shape part :
  is_region part = true →
  ∃ inner, part = display_open ++ inner ++ display_close.
Proof.
  unfold is_region, endsWith. rewrite andb_true_iff.
  intros [[r Hr]%startsWith_true [r' Hr']%startsWith_true].
  apply (f_equal reverse) in Hr'. rewrite reverse_involutive, reverse_app,
    reverse_involutive in Hr'.
  change display_open with [92%N; 91%N] in *.
  change display_close with [92%N; 93%N] in *.
  destruct (reverse r') as [|x [|y inner]]; rewrite Hr' in Hr; simpl in Hr.
  - congruence.
  - congruence.
  - exists inner. injection Hr as -> -> Hr. rewrite Hr'. done.
Qed.

Lemma slice_region inner :
  slice_2_m2 (display_open ++ inner ++ display_close) = inner.
Proof.
  unfold slice_2_m2. rewrite !length_app.
  change (drop 2 (display_open ++ inner ++ display_close))
    with (inner ++ display_close).
  change (length display_open) with 2. change (length display_close) with 2.
  replace (2 + (length inner + 2) - 2 - 2) with (length inner) by lia.
  by rewrite take_app_length.
Qed.

Lemma part_node_region katex inner :
  part_node katex (display_open ++ inner ++ display_close) =
  display_block katex inner.
Proof.
  unfold part_node, is_region. rewrite startsWith_app.
  assert (endsWith display_close (display_open ++ inner ++ display_close) = true) as ->.
  { unfold endsWith. rewrite !reverse_app. rewrite <- app_assoc. apply startsWith_app. }
  cbn [andb]. by rewrite slice_region.
Qed.

Lemma part_node_outside katex part :
  is_region part = false →
  part_node katex part = Arr (paragraph_node katex <$> split_newlines part).
Proof. unfold part_node. by intros ->. Qed.

Lemma flatten_children l :
  (fix go (l : list node) : list node :=
     match l with
     | [] => []
     | c :: l' => flatten c ++ go l'
     end) l = l ≫= flatten.
Proof. induction l as [|c l IH]; [done|]. simpl. by rewrite IH. Qed.

Lemma flatten_Arr l : flatten (Arr l) = l ≫= flatten.
Proof. simpl. apply flatten_children. Qed.

Lemma flatten_Fragment l : flatten (Fragment l) = l ≫= flatten.
Proof. simpl. apply flatten_children. Qed.

Lemma flatten_display_block katex inner :
  flatten (display_block katex inner) = [display_block katex inner].
Proof. unfold display_block. by destruct (katex true (trim inner)). Qed.

Lemma flatten_paragraph_nodes katex text :
  flatten (Arr (paragraph_node katex <$> split_newlines text)) =
  paragraphs katex text.
Proof.
  rewrite flatten_Arr. unfold paragraphs.
  induction (split_newlines text) as [|segment l IH]; [done|].
  rewrite fmap_cons, bind_cons, IH. unfold paragraph_node. simpl.
  by destruct (decide (trim segment = [])).
Qed.

Lemma display_blocks_region katex pre inner post :
  search display_open pre = None →
  search display_close inner = None →
  display_blocks katex (pre ++ display_open ++ inner ++ display_close ++ post) =
  paragraphs katex pre ++ display_block katex inner :: display_blocks katex post.
Proof.
  intros Hpre Hinner. unfold display_blocks.
  rewrite split_display_region by done.
  rewrite !flatten_Fragment, !fmap_cons, !bind_cons.
  rewrite part_node_region, flatten_display_block.
  rewrite part_node_outside, flatten_paragraph_nodes; [done|].
  unfold is_region. apply andb_false_iff. left.
  destruct pre as [|c pre]; [done|]. by apply search_None_cons in Hpre as [? _].
Qed.

Lemma display_blocks_no_region katex text :
  (∀ pre inner post,
     text ≠ pre ++ display_open ++ inner ++ display_close ++ post) →
  display_blocks katex text = paragraphs katex text.
Proof.
  intros Hno. unfold display_blocks.
  rewrite split_by_no_match; [|apply display_match_consuming|].
  - rewrite flatten_Fragment, fmap_cons, bind_cons, fmap_nil. cbn [mbind list_bind]. rewrite app_nil_r.
    rewrite part_node_outside; [apply flatten_paragraph_nodes|].
    destruct (is_region text) eqn:E; [|done].
    apply is_region_shape in E as [inner ->].
    destruct (Hno [] inner []). by rewrite app_nil_r.
  - intros i Hi. unfold display_match.
    destruct (startsWith display_open (drop i text)) eqn:E; [|done].
    apply startsWith_true in E as [r Hr].
    destruct (search display_close (drop 2 (drop i text))) as [[inner post]|] eqn:Es;
      [|done].
    apply search_Some in Es. rewrite Hr in Es.
    change (drop 2 (display_open ++ r)) with r in Es.
    destruct (Hno (take i text) inner post).
    rewrite <- Es, <- Hr. by rewrite take_drop.
Qed.

Lemma blocks_renderDisplay katex text :
  blocks (renderDisplay katex text) = Ok (display_blocks katex text).
Proof. by rewrite renderDisplay_Ok. Qed.

Lemma renderMath_display katex text :
  includes display_open text = true →
  includes display_close text = true →
  renderMath katex text = renderDisplay katex text.
Proof. intros Ho Hc. unfold renderMath. by rewrite Ho, Hc. Qed.

Lemma includes_app p b a : includes p (b ++ p ++ a) = true.
Proof. apply includes_true. eauto. Qed.

(** C1, as the code has it.  A body that contains both display markers is
    split on its display-math regions: the text [pre] before the first
    opening marker that a closing marker follows, the interior [inner] up
    to the first closing marker, and the text [post] after it, which is
    split the same way.  The interior becomes one display block, typeset
    from its trimmed text and never split on line feeds.  The text outside
    the regions is split on runs of line feeds, and each segment that is
    not blank becomes one paragraph: no table is detected there and a
    centre marker is a paragraph like any other segment.  A body with both
    markers and no region is paragraphs only. *)
Theorem display_math_regions katex pre inner post :
  search display_open pre = None →
  search display_close inner = None →
  let text := pre ++ display_open ++ inner ++ display_close ++ post in
  blocks (renderMath katex text) = blocks (renderDisplay katex text) ∧
  (∃ rest,
     blocks (renderDisplay katex post) = Ok rest ∧
     blocks (renderDisplay katex text) =
       Ok (paragraphs katex pre ++ display_block katex inner :: rest)) ∧
  (∀ other : jsstring,
     (∀ pre' inner' post',
        other ≠ pre' ++ display_open ++ inner' ++ display_close ++ post') →
     blocks (renderDisplay katex other) = Ok (paragraphs katex other) ∧
     (includes display_open other = true →
      includes display_close other = true →
      blocks (renderMath katex other) = Ok (paragraphs katex other))).
Proof.
  intros Hpre Hinner text. split; [|split].
  - rewrite renderMath_display; [done|apply includes_app|].
    unfold text. apply includes_true.
    exists (pre ++ display_open ++ inner), post. by rewrite <- !app_assoc.
  - exists (display_blocks katex post). split; [apply blocks_renderDisplay|].
    rewrite blocks_renderDisplay. unfold text.
    by rewrite display_blocks_region.
  - intros other Hno.
    assert (blocks (renderDisplay katex other) = Ok (paragraphs katex other)) as Hd.
    { by rewrite blocks_renderDisplay, display_blocks_no_region. }
    split; [done|]. intros Ho Hc. by rewrite renderMath_display.
Qed.

Lemma display_math_regions_witness :
  blocks (renderDisplay katex_echo
            (lit "See" ++ display_open ++ lit " x " ++ display_close
             ++ [nl] ++ lit "\begin{center}")) =
  Ok [P [Text (lit "See")]; DisplayDiv (lit "x"); P [Text (lit "\begin{center}")]].
Proof.
  destruct (display_math_regions katex_echo (lit "See") (lit " x ")
              ([nl] ++ lit "\begin{center}"))
    as (_ & (rest & Hrest & Hblocks) & _).
  - vm_compute. reflexivity.
  - vm_compute. reflexivity.
  - rewrite Hblocks. vm_compute in Hrest. injection Hrest as <-.
    vm_compute. reflexivity.
Defined.

(** C1 as the specification states it fails: next to a display-math region
    the table markup of a body is not detected, and the segment is rendered
    as a paragraph of raw markup. *)
Lemma display_math_skips_table_rules :
  let text := lit "Given\[x\]"
              ++ lit "\begin{center}\begin{tabular}a & b\end{tabular}\end{center}" in
  includes display_open text = true ∧
  includes display_close text = true ∧
  display_then_remaining_rules katex_echo text =
    [P [Text (lit "Given")]; DisplayDiv (lit "x"); TableEl (lit "a & b")] ∧
  blocks (renderMath katex_echo text) =
    Ok [P [Text (lit "Given")]; DisplayDiv (lit "x");
        P [Text (lit "\begin{center}\begin{tabular}a & b\end{tabular}\end{center}")]] ∧
  blocks (renderMath katex_echo text) ≠
    Ok (display_then_remaining_rules katex_echo text).
Proof.
  repeat split; try (vm_compute; reflexivity).
  vm_compute. discriminate.
Qed.

(** ** The order of [sort] *)

Lemma str_ltb_trichotomy a b :
  str_ltb a b = true ∨ a = b ∨ str_ltb b a = true.
Proof.
  revert b. induction a as [|x a IH]; intros [|y b]; simpl; auto.
  destruct (N.compare_spec x y) as [->|Hlt|Hgt].
  - rewrite N.ltb_irrefl, N.eqb_refl. simpl.
    destruct (IH b) as [?|[->|?]]; auto.
  - left. apply orb_true_iff. left. by apply N.ltb_lt.
  - right. right. apply orb_true_iff. left. by apply N.ltb_lt.
Qed.

Lemma str_ltb_asym a b : str_ltb a b = true → str_ltb b a = false.
Proof.
  revert b. induction a as [|x a IH]; intros [|y b]; simpl; try done.
  rewrite orb_true_iff, andb_true_iff, N.ltb_lt, N.eqb_eq.
  intros [Hlt|[-> Hab]].
  - apply orb_false_iff. split; [apply N.ltb_ge; lia|].
    apply andb_false_iff. left. apply N.eqb_neq. lia.
  - rewrite N.ltb_irrefl, N.eqb_refl. simpl. by apply IH.
Qed.

Lemma str_ltb_trans a b c :
  str_ltb a b = true → str_ltb b c = true → str_ltb a c = true.
Proof.
  revert b c. induction a as [|x a IH]; intros [|y b] [|z c]; simpl; try done.
  rewrite !orb_true_iff, !andb_true_iff, !N.ltb_lt, !N.eqb_eq.
  intros [Hxy|[-> Hab]] [Hyz|[-> Hbc]].
  - left. lia.
  - by left.
  - by left.
  - right. split; [done|]. by apply (IH b).
Qed.

Global Instance str_le_total : Total str_le.
Proof.
  intros a b. unfold str_le. destruct (str_ltb b a) eqn:E; [|by left].
  right. by apply str_ltb_asym.
Qed.

Global Instance str_le_trans : Transitive str_le.
Proof.
  intros a b c. unfold str_le. intros Hab Hbc.
  destruct (str_ltb c a) eqn:Hca; [|done].
  destruct (str_ltb_trichotomy a b) as [Hlt|[->|Hlt]]; [|congruence..].
  assert (str_ltb c b = true) by by apply (str_ltb_trans c a b).
  congruence.
Qed.

Global Instance str_le_antisym : AntiSymm (=) str_le.
Proof.
  intros a b. unfold str_le. intros Hab Hba.
  destruct (str_ltb_trichotomy a b) as [?|[?|?]]; congruence.
Qed.

Lemma sort_sorted a : StronglySorted str_le (sort a).
Proof. apply StronglySorted_merge_sort; apply _. Qed.

Lemma sort_Permutation a : sort a ≡ₚ a.
Proof. apply merge_sort_Permutation. Qed.

Lemma StronglySorted_filter {A} (R : relation A) (P : A → Prop)
    `{∀ x, Decision (P x)} l :
  StronglySorted R l → StronglySorted R (filter P l).
Proof.
  induction 1 as [|x l Hl IH Hx]; [constructor|].
  rewrite filter_cons. destruct (decide (P x)); [|done].
  constructor; [done|].
  apply Forall_forall. intros y [_ Hy]%list_elem_of_filter.
  by eapply Forall_forall in Hx.
Qed.

Lemma filter_all {A} (P : A → Prop) `{∀ x, Decision (P x)} l :
  Forall P l → filter P l = l.
Proof.
  induction 1 as [|x l Hx Hl IH]; [done|].
  rewrite filter_cons. destruct (decide (P x)); [|done]. by rewrite IH.
Qed.

(** Removing the one occurrence of an element of a list without duplicates
    leaves the other elements in place. *)
Lemma filter_remove_one (answer : jsstring) (l : list jsstring) :
  NoDup l → answer ∈ l →
  ∃ before after,
    l = before ++ answer :: after ∧
    filter (λ a, a ≠ answer) l = before ++ after.
Proof.
  intros Hnd Hin. apply list_elem_of_split in Hin as (before & after & ->).
  exists before, after. split; [done|].
  apply NoDup_app in Hnd as (_ & Hdisj & Hnd).
  apply NoDup_cons in Hnd as [Hafter _].
  rewrite filter_app, filter_cons.
  destruct (decide (answer ≠ answer)); [done|].
  f_equal; apply filter_all, Forall_forall; intros a Ha ->.
  - apply (Hdisj answer Ha). by left.
  - done.
Qed.

(** ** The answer record of a multiple-choice question *)

Lemma handleMultiAnswer_currentQuestion answer st :
  currentQuestion (handleMultiAnswer answer st) = currentQuestion st.
Proof. done. Qed.

Lemma record_handleMultiAnswer answer st :
  record (handleMultiAnswer answer st) =
  if bool_decide (answer ∈ record st)
  then filter (λ a, a ≠ answer) (record st)
  else sort (record st ++ [answer]).
Proof. unfold record, handleMultiAnswer. simpl. by rewrite lookup_insert_eq. Qed.

Lemma answers_handleMultiAnswer_ne answer st j :
  j ≠ currentQuestion st →
  answers (handleMultiAnswer answer st) !! j = answers st !! j.
Proof. intros Hj. unfold handleMultiAnswer. simpl. by rewrite lookup_insert_ne. Qed.

Lemma toggles_currentQuestion st options :
  currentQuestion (toggles st options) = currentQuestion st.
Proof.
  revert st. induction options as [|answer options IH]; intros st; [done|].
  simpl. by rewrite IH.
Qed.

Lemma toggles_answers_ne st options j :
  j ≠ currentQuestion st →
  answers (toggles st options) !! j = answers st !! j.
Proof.
  revert st. induction options as [|answer options IH]; intros st Hj; [done|].
  simpl. rewrite IH by done. by apply answers_handleMultiAnswer_ne.
Qed.

Lemma toggles_snoc st options answer :
  toggles st (options ++ [answer]) = handleMultiAnswer answer (toggles st options).
Proof. unfold toggles. by rewrite foldl_app. Qed.

(** One toggle keeps the record sorted and free of duplicates. *)
Lemma record_invariant_step answer st :
  StronglySorted str_le (record st) → NoDup (record st) →
  StronglySorted str_le (record (handleMultiAnswer answer st)) ∧
  NoDup (record (handleMultiAnswer answer st)).
Proof.
  intros Hs Hnd. rewrite record_handleMultiAnswer. case_bool_decide as Hin.
  - split; [by apply StronglySorted_filter | by apply NoDup_filter].
  - split; [apply sort_sorted|].
    rewrite sort_Permutation. apply NoDup_app. split; [done|].
    split; [|apply NoDup_singleton].
    intros a Ha ->%list_elem_of_singleton. done.
Qed.

Lemma record_invariant st options :
  StronglySorted str_le (record st) → NoDup (record st) →
  StronglySorted str_le (record (toggles st options)) ∧
  NoDup (record (toggles st options)).
Proof.
  revert st. induction options as [|answer options IH]; intros st Hs Hnd; [done|].
  simpl. destruct (record_invariant_step answer st Hs Hnd). by apply IH.
Qed.

(** C10. From an empty answer record, after any sequence of multi-answer
    toggles the record is sorted in ascending order and has no duplicates,
    and toggling an option that is in the record removes that option and
    leaves the others in place. *)
Theorem multi_answer_record_sorted st options :
  record st = [] →
  StronglySorted str_le (record (toggles st options)) ∧
  NoDup (record (toggles st options)) ∧
  ∀ answer, answer ∈ record (toggles st options) →
    ∃ before after,
      record (toggles st options) = before ++ answer :: after ∧
      record (handleMultiAnswer answer (toggles st options)) = before ++ after.
Proof.
  intros Hempty.
  destruct (record_invariant st options) as [Hs Hnd].
  { rewrite Hempty. constructor. }
  { rewrite Hempty. constructor. }
  split; [done|]. split; [done|]. intros answer Hin.
  rewrite record_handleMultiAnswer, bool_decide_eq_true_2 by done.
  by apply filter_remove_one.
Qed.

Lemma multi_answer_record_sorted_witness :
  let st := toggles initial [lit "C"; lit "A"; lit "D"] in
  StronglySorted str_le (record st) ∧
  NoDup (record st) ∧
  ∀ answer, answer ∈ record st →
    ∃ before after,
      record st = before ++ answer :: after ∧
      record (handleMultiAnswer answer st) = before ++ after.
Proof.
  apply (multi_answer_record_sorted initial [lit "C"; lit "A"; lit "D"]).
  reflexivity.
Defined.

(** ** Scoring *)

Lemma forEach_from_count {A} (P : nat → A → Prop) `{∀ i x, Decision (P i x)}
    (l : list A) k score :
  forEach_from (λ x index score, if decide (P index x) then S score else score)
               k l score =
  score + length (filter (λ ix, P ix.1 ix.2) (imap (λ i x, (k + i, x)) l)).
Proof.
  revert k score. induction l as [|x l IH]; intros k score; simpl; [lia|].
  rewrite IH, filter_cons. simpl. rewrite Nat.add_0_r.
  assert (imap ((λ i y, (k + i, y)) ∘ S) l = imap (λ i y, (S (k + i), y)) l)
    as -> by (apply imap_ext; intros; simpl; f_equal; lia).
  destruct (decide (P k x)); simpl; lia.
Qed.

Lemma forEach_from_ext {A S} (f g : A → nat → S → S) k l s :
  (∀ x i s, f x i s = g x i s) →
  forEach_from f k l s = forEach_from g k l s.
Proof.
  intros Hfg. revert k s. induction l as [|x l IH]; intros k s; simpl; [done|].
  by rewrite Hfg, IH.
Qed.

Lemma calculateScore_count questions answers :
  calculateScore questions answers =
  length (filter (λ iq, judged_correct iq.2 (default [] (answers !! iq.1)))
                 (imap pair questions)).
Proof.
  unfold calculateScore, forEach.
  rewrite (forEach_from_ext _
    (λ q index score,
       if decide (judged_correct q (default [] (answers !! index)))
       then S score else score)).
  - by rewrite (forEach_from_count
      (λ i q, judged_correct q (default [] (answers !! i)))).
  - intros q i score.
    destruct (decide (judged_correct q (default [] (answers !! i)))) as [Hj|Hj];
      unfold judged_correct in Hj;
      destruct (decide (type q = MCQ_multiple));
      repeat case_decide; done.
Qed.

Lemma calculateScore_ext questions answers1 answers2 :
  (∀ i, default [] (answers1 !! i) = default [] (answers2 !! i)) →
  calculateScore questions answers1 = calculateScore questions answers2.
Proof.
  intros Hsame. rewrite !calculateScore_count. f_equal.
  apply list_filter_iff. intros [i q]. simpl. by rewrite Hsame.
Qed.

(** C6. The score counts the questions judged correct.  A question of type
    MCQ(multiple) is judged correct when the strings of its answer record,
    joined, are the answer string of the question; a question of any other
    type when the first string of its record is the answer string; a missing
    record is the empty record.  Both are comparisons of strings: with the
    answer B the record [B] scores and the record [A] does not, and a record
    with the letters of the answer in another order does not score. *)
Theorem scoring_rule questions answers :
  calculateScore questions answers =
    length (filter (λ iq, judged_correct iq.2 (default [] (answers !! iq.1)))
                   (imap pair questions)) ∧
  (∀ q record, type q = MCQ_multiple →
     (judged_correct q record ↔ join_empty record = gold q)) ∧
  (∀ q record, type q ≠ MCQ_multiple →
     (judged_correct q record ↔ record !! 0 = Some (gold q))) ∧
  (∀ subject question,
     let q := Build_Question subject (lit "MCQ") (lit "B") question in
     calculateScore [q] {[0 := [lit "B"]]} = 1 ∧
     calculateScore [q] {[0 := [lit "A"]]} = 0 ∧
     calculateScore [q] ∅ = 0) ∧
  (∀ subject question,
     let q := Build_Question subject MCQ_multiple (lit "CA") question in
     calculateScore [q] {[0 := [lit "C"; lit "A"]]} = 1 ∧
     calculateScore [q] {[0 := [lit "A"; lit "C"]]} = 0).
Proof.
  split; [apply calculateScore_count|]. split; [|split; [|split]].
  - intros q record Hq. unfold judged_correct.
    by destruct (decide (type q = MCQ_multiple)).
  - intros q record Hq. unfold judged_correct.
    by destruct (decide (type q = MCQ_multiple)).
  - intros subject question q. repeat split; vm_compute; reflexivity.
  - intros subject question q. repeat split; vm_compute; reflexivity.
Qed.

Lemma scoring_rule_witness :
  judged_correct (Build_Question [] (lit "MCQ") (lit "B") []) [lit "B"].
Proof.
  apply (proj1 (proj2 (proj2 (scoring_rule [] ∅)))).
  - vm_compute. discriminate.
  - reflexivity.
Defined.

(** ** The order of the toggles *)

(** An option is in the record exactly when it was toggled an odd number of
    times. *)
Lemma record_toggles_odd st options a :
  record st = [] →
  a ∈ record (toggles st options) ↔
  Nat.odd (length (filter (λ o, o = a) options)) = true.
Proof.
  intros Hempty. induction options as [|b options IH] using rev_ind.
  { simpl. rewrite Hempty. split; [by intros ?%elem_of_nil|done]. }
  rewrite toggles_snoc, record_handleMultiAnswer, filter_app, length_app.
  rewrite filter_cons, filter_nil.
  assert (a ∈ (if bool_decide (b ∈ record (toggles st options))
               then filter (λ x, x ≠ b) (record (toggles st options))
               else sort (record (toggles st options) ++ [b]))
          ↔ (if decide (b = a) then a ∉ record (toggles st options)
             else a ∈ record (toggles st options))) as ->.
  { case_bool_decide as Hb.
    - rewrite list_elem_of_filter. destruct (decide (b = a)) as [->|Hne].
      + split; [by intros [? _]|done].
      + split; [by intros [_ ?]|]. intros ?. split; [congruence|done].
    - rewrite sort_Permutation, elem_of_app, list_elem_of_singleton.
      destruct (decide (b = a)) as [->|Hne].
      + split; [done|by right].
      + split; [intros [?|?]; [done|congruence] | by left]. }
  destruct (decide (b = a)) as [->|Hne]; simpl.
  - rewrite IH, Nat.add_1_r, Nat.odd_succ, <- Nat.negb_odd.
    destruct (Nat.odd _); simpl; split; congruence.
  - by rewrite IH, Nat.add_0_r.
Qed.

Lemma toggles_answers_default st options i :
  default [] (answers (toggles st options) !! i) =
  if decide (i = currentQuestion st) then record (toggles st options)
  else default [] (answers st !! i).
Proof.
  destruct (decide (i = currentQuestion st)) as [->|Hne].
  - unfold record. by rewrite toggles_currentQuestion.
  - by rewrite toggles_answers_ne.
Qed.

(** C7. The record of a multiple-choice question, and with it the score,
    depends only on the set of options left selected: two sequences of
    toggles from the empty record that leave the same options selected
    leave the same record and the same score.  An option is selected
    exactly when it was toggled an odd number of times, whatever the order.
    Selecting C then A and selecting A then C both store [A; C], and both
    score against the answer AC. *)
Theorem toggle_order_irrelevant st options1 options2 questions :
  record st = [] →
  (∀ a, a ∈ record (toggles st options1) ↔ a ∈ record (toggles st options2)) →
  record (toggles st options1) = record (toggles st options2) ∧
  calculateScore questions (answers (toggles st options1)) =
    calculateScore questions (answers (toggles st options2)) ∧
  (∀ a, a ∈ record (toggles st options1) ↔
        Nat.odd (length (filter (λ o, o = a) options1)) = true) ∧
  record (toggles initial [lit "C"; lit "A"]) = [lit "A"; lit "C"] ∧
  record (toggles initial [lit "A"; lit "C"]) = [lit "A"; lit "C"] ∧
  (∀ subject question,
     let q := Build_Question subject MCQ_multiple (lit "AC") question in
     calculateScore [q] (answers (toggles initial [lit "C"; lit "A"])) = 1 ∧
     calculateScore [q] (answers (toggles initial [lit "A"; lit "C"])) = 1).
Proof.
  intros Hempty Hsame.
  assert (StronglySorted str_le (record st) ∧ NoDup (record st)) as [Hs Hnd].
  { rewrite Hempty. split; constructor. }
  destruct (record_invariant st options1 Hs Hnd) as [Hs1 Hnd1].
  destruct (record_invariant st options2 Hs Hnd) as [Hs2 Hnd2].
  assert (record (toggles st options1) = record (toggles st options2)) as Heq.
  { apply (StronglySorted_unique str_le); [done..|]. by apply NoDup_Permutation. }
  split; [done|]. split.
  { apply calculateScore_ext. intros i.
    rewrite !toggles_answers_default. by rewrite Heq. }
  split; [intros a; by apply record_toggles_odd|].
  repeat split; vm_compute; reflexivity.
Qed.

Lemma toggle_order_irrelevant_witness :
  let q := Build_Question [] MCQ_multiple (lit "AC") [] in
  record (toggles initial [lit "C"; lit "A"]) =
    record (toggles initial [lit "A"; lit "C"]) ∧
  calculateScore [q] (answers (toggles initial [lit "C"; lit "A"])) =
    calculateScore [q] (answers (toggles initial [lit "A"; lit "C"])).
Proof.
  intros q.
  destruct (toggle_order_irrelevant initial [lit "C"; lit "A"]
              [lit "A"; lit "C"] [q]) as (Hr & Hs & _).
  - reflexivity.
  - intros a. reflexivity.
  - split; [exact Hr | exact Hs].
Defined.

(** ** The questions of a session *)

Lemma insert_flip_Permutation {A} (x : A) l coins :
  (insert_flip x l coins).1 ≡ₚ x :: l.
Proof.
  revert coins. induction l as [|y l IH]; intros coins; simpl; [done|].
  destruct coins as [|[] coins]; simpl; [done..|].
  specialize (IH coins). destruct (insert_flip x l coins) as [r coins'].
  simpl in *. rewrite IH. apply Permutation_swap.
Qed.

Lemma sort_flip_Permutation {A} (l : list A) coins :
  (sort_flip l coins).1 ≡ₚ l.
Proof.
  revert coins. induction l as [|x l IH]; intros coins; simpl; [done|].
  specialize (IH coins). destruct (sort_flip l coins) as [r coins'].
  simpl in *. by rewrite insert_flip_Permutation, IH.
Qed.

Section SamplingFacts.

Context {rng : Type}.
Variable bank : list Question.
Variable sort_random : list Question → rng → list Question * rng.

(** Whatever the comparator answers, a sort rearranges its array. *)
Hypothesis sort_random_Permutation : ∀ l g, (sort_random l g).1 ≡ₚ l.

Lemma filteredQuestions_chosen chosen g :
  chosen ≠ [] →
  ∃ sorted,
    sorted ≡ₚ filter (λ q, subject q = chosen) bank ∧
    (filteredQuestions bank sort_random (Some chosen) g).1 = take 20 sorted.
Proof using sort_random_Permutation.
  intros Hne. destruct chosen as [|c chosen]; [done|].
  unfold filteredQuestions.
  pose proof (sort_random_Permutation
                (filter (λ q, subject q = c :: chosen) bank) g) as Hperm.
  destruct (sort_random _ g) as [sorted g']. simpl in *. eauto.
Qed.

(** A render of a state whose subject is the one of the memo cell returns
    the questions of the cell. *)
Lemma render_memo st chosen qs g :
  selectedSubject st = Some chosen →
  render bank sort_random st (Some (Some chosen, qs)) g =
  mkSession st (Some (Some chosen, qs)) g qs.
Proof.
  intros Hsel. unfold render, useMemo. rewrite Hsel.
  by destruct (decide (Some chosen = Some chosen)).
Qed.

Lemma handle_selectedSubject e (s : @Session rng) :
  (∀ c, e ≠ SelectSubject c) →
  selectedSubject (handle e s) = selectedSubject (state s).
Proof.
  intros He. destruct e; simpl; try done.
  - by destruct (He chosen).
  - by destruct (truthy_string _ && _).
  - unfold handleAnswer. by destruct (truthy_time _).
  - unfold handleNext. by case_bool_decide.
  - by case_bool_decide.
Qed.

Lemma run_memo (s : @Session rng) chosen qs events :
  selectedSubject (state s) = Some chosen →
  memo s = Some (Some chosen, qs) →
  questions s = qs →
  Forall (λ e, ∀ c, e ≠ SelectSubject c) events →
  questions (run bank sort_random s events) = qs.
Proof.
  intros Hsel Hmemo Hqs Hev. revert s Hsel Hmemo Hqs.
  induction Hev as [|e events He Hev IH]; intros s Hsel Hmemo Hqs; [done|].
  assert (selectedSubject (handle e s) = Some chosen) as Hh
    by by rewrite handle_selectedSubject.
  assert (step bank sort_random s e =
          mkSession (handle e s) (Some (Some chosen, qs)) (random s) qs) as Hstep.
  { unfold step. rewrite Hmemo. by apply render_memo. }
  simpl. rewrite Hstep. by apply IH.
Qed.

(** C8. Choosing a subject draws the questions of the session once: they
    are questions of the bank with the chosen subject, each taken at most as
    often as the bank has it (once, when the bank has no question twice),
    min(20, available) of them, all the available ones when there are at
    most 20; and whatever happens later in the session, short of choosing a
    subject again, the list and its order stay as drawn. *)
Theorem session_sample chosen g events :
  chosen ≠ [] →
  Forall (λ e, ∀ c, e ≠ SelectSubject c) events →
  let available := filter (λ q, subject q = chosen) bank in
  let session :=
    step bank sort_random (mountApp bank sort_random g) (SelectSubject chosen) in
  questions session ⊆+ available ∧
  length (questions session) = min 20 (length available) ∧
  (NoDup bank → NoDup (questions session)) ∧
  (length available ≤ 20 → questions session ≡ₚ available) ∧
  questions (run bank sort_random session events) = questions session.
Proof using sort_random_Permutation.
  intros Hne Hev available session.
  destruct (filteredQuestions_chosen chosen g Hne) as (sorted & Hperm & Htake).
  assert (session =
          mkSession (setSelectedSubject (Some chosen) initial)
                    (Some (Some chosen, take 20 sorted))
                    (filteredQuestions bank sort_random (Some chosen) g).2
                    (take 20 sorted)) as Hsession.
  { assert (mountApp bank sort_random g =
            mkSession initial (Some (None, [])) g []) as Hmount by done.
    unfold session, step. rewrite Hmount.
    change (handle (SelectSubject chosen) (mkSession initial (Some (None, [])) g []))
      with (setSelectedSubject (Some chosen) initial).
    unfold render, useMemo.
    change (selectedSubject (setSelectedSubject (Some chosen) initial))
      with (Some chosen).
    cbn [memo random]. destruct (decide (None = Some chosen)); [done|].
    destruct (filteredQuestions bank sort_random (Some chosen) g) as [qs g'].
    simpl in Htake. by rewrite Htake. }
  rewrite Hsession. simpl.
  assert (take 20 sorted ⊆+ available) as Hsub.
  { unfold available. rewrite <- Hperm. apply submseteq_take. }
  split; [done|]. split.
  { rewrite length_take. unfold available. by rewrite <- Hperm. }
  split.
  { intros Hnd. apply submseteq_Permutation in Hsub as [k Hk].
    assert (NoDup available) as Hav by by apply NoDup_filter.
    rewrite Hk in Hav. by apply NoDup_app in Hav as [? _]. }
  split.
  { intros Hle. rewrite take_ge; [done|].
    unfold available in Hle. by rewrite Hperm. }
  by apply (run_memo _ chosen).
Qed.

End SamplingFacts.

Lemma session_sample_witness :
  let available := filter (λ q, subject q = lit "math") sample_bank in
  let session :=
    step sample_bank sort_flip
         (mountApp sample_bank sort_flip [true; false; false; true])
         (SelectSubject (lit "math")) in
  questions session ⊆+ available ∧
  length (questions session) = min 20 (length available) ∧
  (NoDup sample_bank → NoDup (questions session)) ∧
  (length available ≤ 20 → questions session ≡ₚ available) ∧
  questions (run sample_bank sort_flip session
               [Answer 5 (lit "B"); Next; MultiAnswer (lit "A"); GoTo 0]) =
  questions session.
Proof.
  apply (session_sample sample_bank sort_flip sort_flip_Permutation (lit "math")
           [true; false; false; true]
           [Answer 5 (lit "B"); Next; MultiAnswer (lit "A"); GoTo 0]).
  - vm_compute. discriminate.
  - repeat constructor; discriminate.
Defined.

Example five_available_five_sampled :
  length (filter (λ q, subject q = lit "math") sample_bank) = 5 ∧
  questions (step sample_bank sort_flip
               (mountApp sample_bank sort_flip [true; false; false; true])
               (SelectSubject (lit "math"))) =
  [sample_question "math" "1"; sample_question "math" "3";
   sample_question "math" "6"; sample_question "math" "7";
   sample_question "math" "4"].
Proof. split; vm_compute; reflexivity. Qed.

(** ** Counting the pieces of a split *)

Lemma split_unit_cons (c x : N) s :
  split [c] (x :: s) =
  if (c =? x)%N then [] :: split [c] s else cons_hd x (split [c] s).
Proof.
  rewrite split_cons by done. simpl. rewrite andb_true_r.
  by destruct (c =? x)%N.
Qed.

Lemma length_cons_hd c pieces : length (cons_hd c pieces) = length pieces.
Proof. by destruct pieces. Qed.

(** A split on a one-unit separator has one piece more than the string has
    separators. *)
Lemma length_split_unit c s : length (split [c] s) = S (count_unit c s).
Proof.
  unfold count_unit. induction s as [|x s IH]; [done|].
  rewrite split_unit_cons, filter_cons.
  destruct (N.eqb_spec c x) as [->|Hne].
  - rewrite decide_True by done. simpl. by rewrite IH.
  - rewrite decide_False by congruence. by rewrite length_cons_hd.
Qed.

Lemma split_unit_absent (c : N) s : c ∉ s → split [c] s = [s].
Proof.
  induction s as [|x s IH]; intros Hc; [done|].
  rewrite split_unit_cons. apply not_elem_of_cons in Hc as [Hne Hc].
  destruct (N.eqb_spec c x) as [->|_]; [done|]. by rewrite IH.
Qed.

(** X1. The nodes of an inline text are one more than its dollar signs: a
    text without a dollar sign is one literal, and with an odd number of
    dollar signs the text after the last one is handed to the typesetting
    engine, closed or not. *)
Theorem inline_math_dollar_count katex text :
  ∃ nodes,
    renderMathInline katex text = Ok nodes ∧
    length nodes = S (count_unit 36 text) ∧
    (count_unit 36 text = 0 → nodes = [Text text]) ∧
    (Nat.odd (count_unit 36 text) = true →
     ∃ part, last (split dollar text) = Some part ∧
             last nodes = Some (typeset katex part)).
Proof.
  exists (inline katex text). split; [apply renderMathInline_Ok|].
  assert (length (inline katex text) = S (count_unit 36 text)) as Hlen.
  { unfold inline. rewrite length_imap. apply (length_split_unit 36). }
  split; [done|]. split.
  - intros Hzero. unfold inline.
    assert (split dollar text = [text]) as ->; [|done].
    apply (split_unit_absent 36 text).
    unfold count_unit in Hzero. apply length_zero_iff_nil in Hzero.
    intros Hin. assert (36%N ∈ filter (λ x, x = 36%N) text) as Hf
      by by apply list_elem_of_filter.
    rewrite Hzero in Hf. by apply elem_of_nil in Hf.
  - intros Hodd.
    pose proof (length_split_unit 36 text) as Hs.
    change (split [36%N] text) with (split dollar text) in Hs.
    destruct (split dollar text !! count_unit 36 text) as [part|] eqn:Hpart.
    2:{ apply lookup_ge_None in Hpart. lia. }
    exists part. rewrite !last_lookup, Hlen, Hs. simpl.
    split; [done|]. unfold inline.
    rewrite list_lookup_imap, Hpart. simpl.
    by rewrite <- Nat.negb_odd, Hodd.
Qed.

Lemma inline_math_dollar_count_witness :
  ∃ nodes,
    renderMathInline katex_echo (lit "cost: 5$ each") = Ok nodes ∧
    last nodes = Some (SpanHtml (lit " each")).
Proof.
  destruct (inline_math_dollar_count katex_echo (lit "cost: 5$ each"))
    as (nodes & Hr & _ & _ & Hodd).
  exists nodes. split; [exact Hr|].
  destruct Hodd as (part & Hpart & Hlast); [reflexivity|].
  vm_compute in Hpart. injection Hpart as <-. exact Hlast.
Defined.

(** X2. The Table component keeps ragged rows: when a row survives, the
    header has one cell more than the first surviving row has ampersands,
    and each body row has one cell more than that row has ampersands,
    whatever the width of the header. *)
Theorem Table_cell_counts katex content header body :
  Table_rows content = header :: body →
  ∃ thead tbody,
    Table katex content = Ok (TableView thead tbody) ∧
    length thead = S (count_unit 38 header) ∧
    length <$> tbody = (λ row, S (count_unit 38 row)) <$> body.
Proof.
  intros Hrows. eexists _, _. split; [by apply Table_Ok|]. split.
  - rewrite !length_fmap. apply (length_split_unit 38).
  - rewrite <- list_fmap_compose. apply list_fmap_ext. intros i row _. simpl.
    rewrite !length_fmap. apply (length_split_unit 38).
Qed.

Lemma Table_cell_counts_witness :
  ∃ thead tbody,
    Table katex_echo (lit "a & b \\ 1 & 2 & 3 \\ 4") = Ok (TableView thead tbody) ∧
    length thead = 2 ∧
    length <$> tbody = [3; 1].
Proof.
  apply (Table_cell_counts katex_echo (lit "a & b \\ 1 & 2 & 3 \\ 4")
           (lit "a & b") [lit "1 & 2 & 3"; lit "4"]).
  vm_compute. reflexivity.
Defined.

(** ** trim *)

Lemma trimStart_head s c s' :
  trimStart s = c :: s' → is_white_space c = false.
Proof.
  induction s as [|x s IH]; simpl; [done|].
  destruct (is_white_space x) eqn:E; [done|]. by intros [= <- <-].
Qed.

Lemma trimStart_fixed c s :
  is_white_space c = false → trimStart (c :: s) = c :: s.
Proof. simpl. by intros ->. Qed.

Lemma trimStart_suffix s : ∃ ws, s = ws ++ trimStart s.
Proof.
  induction s as [|x s [ws IH]]; simpl; [by exists []|].
  destruct (is_white_space x); [|by exists []].
  exists (x :: ws). simpl. by rewrite <- IH.
Qed.

(** Trimming the start of a text that ends with a unit that is not white
    space keeps that end. *)
Lemma trimStart_snoc l c :
  is_white_space c = false → ∃ l', trimStart (l ++ [c]) = l' ++ [c].
Proof.
  intros Hc. induction l as [|x l [l' IH]]; simpl.
  - rewrite Hc. by exists [].
  - destruct (is_white_space x); [by exists l'|]. by exists (x :: l).
Qed.

Lemma trim_nil_or_bounded s :
  trim s = [] ∨
  ∃ c middle, trim s = c :: middle ∧ is_white_space c = false ∧
              ∃ d front, trim s = front ++ [d] ∧ is_white_space d = false.
Proof.
  unfold trim, trimEnd.
  destruct (trimStart s) as [|c u] eqn:Hu; [by left|]. right.
  pose proof (trimStart_head _ _ _ Hu) as Hc.
  rewrite reverse_cons.
  destruct (trimStart_snoc (reverse u) c Hc) as [l' Hl'].
  rewrite Hl', reverse_app. simpl. exists c, (reverse l').
  split; [done|]. split; [done|].
  destruct l' as [|d l'].
  - exists c, []. by rewrite Hc.
  - assert (is_white_space d = false) as Hd.
    { destruct (trimStart (reverse u ++ [c])) as [|d' t] eqn:Ht; [done|].
      injection Hl' as -> _. by apply (trimStart_head _ _ _ Ht). }
    exists d, (c :: reverse l'). rewrite reverse_cons. by rewrite Hd.
Qed.

(** A trimmed text is a fixed point of trim. *)
Lemma trim_idempotent s : trim (trim s) = trim s.
Proof.
  destruct (trim_nil_or_bounded s) as [->|(c & middle & Hc & Hws & d & front & Hd & Hwd)];
    [done|].
  unfold trim at 1. rewrite Hc, trimStart_fixed by done. rewrite <- Hc, Hd.
  unfold trimEnd. rewrite reverse_app. simpl.
  rewrite Hwd. by rewrite reverse_cons, reverse_involutive.
Qed.

Lemma elem_of_trimStart (c : N) s : c ∈ trimStart s → c ∈ s.
Proof.
  destruct (trimStart_suffix s) as [ws Hs]. intros Hin.
  rewrite Hs. apply elem_of_app. by right.
Qed.

Lemma elem_of_trim (c : N) s : c ∈ trim s → c ∈ s.
Proof.
  unfold trim, trimEnd. rewrite elem_of_reverse. intros Hin.
  apply elem_of_trimStart in Hin. rewrite elem_of_reverse in Hin.
  by apply elem_of_trimStart.
Qed.

(** X3. The rows the Table component works on and the cells of each row
    are normal forms of trim: no row is empty or the rule marker, every row
    starts and ends with a code unit that is not white space, and trimming
    a row or a cell again changes nothing. *)
Theorem Table_rows_trimmed content :
  Forall (λ row, row ≠ [] ∧ row ≠ hline ∧ trim row = row ∧
                 Forall (λ cell, trim cell = cell) (cells row) ∧
                 (∃ c middle, row = c :: middle ∧ is_white_space c = false) ∧
                 (∃ d front, row = front ++ [d] ∧ is_white_space d = false))
         (Table_rows content).
Proof.
  apply Forall_forall. intros row Hrow. unfold Table_rows in Hrow.
  apply list_elem_of_filter in Hrow as [[Hh Hne] Hrow].
  apply list_elem_of_fmap in Hrow as (candidate & -> & _).
  split; [done|]. split; [done|]. split; [apply trim_idempotent|]. split.
  - unfold cells. apply Forall_fmap, Forall_forall. intros cell _. simpl.
    apply trim_idempotent.
  - destruct (trim_nil_or_bounded candidate)
      as [?|(c & middle & Hc & Hws & d & front & Hd & Hwd)]; [done|]. eauto 10.
Qed.

(** ** Bodies without markup *)

Lemma elem_of_drop_newlines (c : N) s : c ∈ drop_newlines s → c ∈ s.
Proof.
  induction s as [|x s IH]; simpl; [done|].
  destruct (x =? nl)%N; [|done]. intros ?. right. by apply IH.
Qed.

(** The code units of a segment are code units of the text. *)
Lemma elem_of_split_newlines (c : N) s segment :
  segment ∈ split_newlines s → c ∈ segment → c ∈ s.
Proof.
  remember (length s) as n eqn:Hn. revert s segment Hn.
  induction n as [n IH] using lt_wf_ind. intros [|x s] segment ->.
  { intros ->%list_elem_of_singleton. done. }
  rewrite split_newlines_cons. destruct (x =? nl)%N.
  - intros [->|Hin]%elem_of_cons; [by intros ?%elem_of_nil|].
    intros Hc. right. apply elem_of_drop_newlines.
    pose proof (drop_newlines_length s).
    eapply (IH (length (drop_newlines s))); [simpl; lia|done..].
  - destruct (split_newlines s) as [|p ps] eqn:Hs; [by intros ?%elem_of_nil|].
    simpl. intros [->|Hin]%elem_of_cons.
    + intros [->|Hc]%elem_of_cons; [by left|]. right.
      eapply (IH (length s)); [simpl; lia|done| |done].
      rewrite Hs. by left.
    + intros Hc. right.
      eapply (IH (length s)); [simpl; lia|done| |done].
      rewrite Hs. by right.
Qed.

Lemma includes_backslash p (s : jsstring) :
  92%N ∈ p → 92%N ∉ s → includes p s = false.
Proof.
  intros Hp Hs. destruct (includes p s) eqn:E; [|done].
  apply includes_true in E as (b & a & ->). destruct Hs.
  apply elem_of_app. right. apply elem_of_app. by left.
Qed.

(** X4. A body without a backslash has no markup: renderMath returns one
    paragraph for each segment between runs of line feeds, in order, blank
    segments included, with the inline math of the segment resolved. *)
Theorem renderMath_plain katex text :
  92%N ∉ text →
  renderMath katex text =
  Ok (Arr ((λ segment, P (inline katex segment)) <$> split_newlines text)).
Proof.
  intros Hno. rewrite renderMath_Ok.
  rewrite (includes_backslash display_open text) by (compute_done || done).
  cbn [andb]. do 2 f_equal. apply list_fmap_ext. intros i segment Hi.
  assert (92%N ∉ segment) as Hseg.
  { intros Hc. apply Hno. eapply elem_of_split_newlines; [|done].
    by eapply list_elem_of_lookup_2. }
  unfold segment_node.
  rewrite (includes_backslash begin_center segment) by (compute_done || done).
  cbn [andb].
  destruct (decide (trim segment = begin_center ∨ trim segment = end_center))
    as [[Ht|Ht]|_]; [| |done]; destruct Hseg; apply elem_of_trim; rewrite Ht;
    compute_done.
Qed.

Lemma renderMath_plain_witness :
  renderMath katex_echo (lit "Let $x$ be real." ++ [nl; nl] ++ lit "Find x.") =
  Ok (Arr [P [Text (lit "Let "); SpanHtml (lit "x"); Text (lit " be real.")];
           P [Text (lit "Find x.")]]).
Proof.
  rewrite (renderMath_plain katex_echo
             (lit "Let $x$ be real." ++ [nl; nl] ++ lit "Find x.")).
  - vm_compute. reflexivity.
  - compute_done.
Defined.

(** ** JSON.stringify on arrays of strings *)

Lemma from_hex_digit_hex_digit d :
  (d < 16)%N → from_hex_digit (hex_digit d) = d.
Proof.
  intros Hd. unfold hex_digit, from_hex_digit.
  destruct (N.ltb_spec d 10).
  - destruct (N.ltb_spec (48 + d) 58); lia.
  - destruct (N.ltb_spec (87 + d) 58); lia.
Qed.

Lemma hex_digits_value c :
  (c < 65536)%N →
  (((((c / 4096) mod 16) * 16 + ((c / 256) mod 16)) * 16
    + ((c / 16) mod 16)) * 16 + (c mod 16) = c)%N.
Proof.
  intros Hc.
  replace (c / 256)%N with (c / 16 / 16)%N by by rewrite N.Div0.div_div.
  replace (c / 4096)%N with (c / 16 / 16 / 16)%N by by rewrite !N.Div0.div_div.
  pose proof (N.Div0.div_mod c 16) as H0.
  pose proof (N.Div0.div_mod (c / 16) 16) as H1.
  pose proof (N.Div0.div_mod (c / 16 / 16) 16) as H2.
  assert (c / 16 / 16 / 16 < 16)%N as H3.
  { rewrite !N.Div0.div_div. by apply N.Div0.div_lt_upper_bound. }
  rewrite (N.mod_small (c / 16 / 16 / 16) 16) by done.
  lia.
Qed.

Lemma read_UnicodeEscape c t :
  (c < 65536)%N →
  read_string (UnicodeEscape c ++ t) = cons_read c (read_string t).
Proof.
  intros Hc. unfold UnicodeEscape. simpl.
  rewrite !from_hex_digit_hex_digit by (apply N.mod_lt; lia).
  by rewrite hex_digits_value.
Qed.

Lemma read_quote_code_unit c t :
  read_string (quote_code_unit c ++ t) = cons_read c (read_string t).
Proof.
  unfold quote_code_unit.
  destruct (N.eqb_spec c 8) as [->|?]; [done|].
  destruct (N.eqb_spec c 9) as [->|?]; [done|].
  destruct (N.eqb_spec c 10) as [->|?]; [done|].
  destruct (N.eqb_spec c 12) as [->|?]; [done|].
  destruct (N.eqb_spec c 13) as [->|?]; [done|].
  destruct (N.eqb_spec c 34) as [->|?]; [done|].
  destruct (N.eqb_spec c 92) as [->|?]; [done|].
  destruct ((c <? 32)%N || is_leading_surrogate c || is_trailing_surrogate c)
    eqn:Hesc.
  - apply read_UnicodeEscape.
    unfold is_leading_surrogate, is_trailing_surrogate in Hesc.
    destruct (N.ltb_spec c 32); [lia|].
    destruct (N.leb_spec c 56319); [lia|].
    destruct (N.leb_spec c 57343); [lia|].
    rewrite !andb_false_r in Hesc. done.
  - simpl. destruct (N.eqb_spec c 34); [done|].
    destruct (N.eqb_spec c 92); done.
Qed.

(** Reading a quoted string back gives the string. *)
Lemma read_quote_body s rest :
  read_string (quote_body s ++ 34%N :: rest) = Some (s, rest).
Proof.
  cut (read_string (quote_body s ++ 34%N :: rest) = Some (s, rest) ∧
       ∀ c, read_string (quote_body (c :: s) ++ 34%N :: rest) = Some (c :: s, rest)).
  { by intros [? _]. }
  induction s as [|d s [IH1 IH2]].
  - split; [done|]. intros c. simpl. rewrite read_quote_code_unit. done.
  - split; [apply IH2|]. intros c.
    change (quote_body (c :: d :: s)) with
      (if is_leading_surrogate c && is_trailing_surrogate d
       then c :: d :: quote_body s
       else quote_code_unit c ++ quote_body (d :: s)).
    destruct (is_leading_surrogate c && is_trailing_surrogate d) eqn:Hpair.
    + apply andb_true_iff in Hpair as [Hc Hd].
      unfold is_leading_surrogate, is_trailing_surrogate in Hc, Hd.
      apply andb_true_iff in Hc as [Hc _%N.leb_le], Hd as [Hd _%N.leb_le].
      apply N.leb_le in Hc, Hd.
      change ((c :: d :: quote_body s) ++ 34%N :: rest)
        with (c :: d :: (quote_body s ++ 34%N :: rest)).
      cbn [read_string].
      destruct (N.eqb_spec c 34); [lia|]. destruct (N.eqb_spec c 92); [lia|].
      destruct (N.eqb_spec d 34); [lia|]. destruct (N.eqb_spec d 92); [lia|].
      by rewrite IH1.
    + rewrite <- app_assoc, read_quote_code_unit. by rewrite IH2.
Qed.

Lemma QuoteJSONString_app_inj s1 s2 r1 r2 :
  QuoteJSONString s1 ++ r1 = QuoteJSONString s2 ++ r2 → s1 = s2 ∧ r1 = r2.
Proof.
  unfold QuoteJSONString. rewrite <- !app_assoc. simpl. intros [= Heq].
  pose proof (read_quote_body s1 r1) as H1. rewrite Heq, read_quote_body in H1.
  by injection H1 as -> ->.
Qed.

Lemma join_cons sep x (a : list jsstring) :
  join sep (x :: a) = x ++ match a with [] => [] | _ :: _ => sep ++ join sep a end.
Proof. destruct a; simpl; [by rewrite app_nil_r|done]. Qed.

(** Two arrays of strings with the same JSON text are the same array. *)
Lemma JSON_stringify_inj a1 a2 :
  JSON_stringify a1 = JSON_stringify a2 → a1 = a2.
Proof.
  unfold JSON_stringify.
  change (lit "[") with [91%N]. change (lit "]") with [93%N].
  change (lit ",") with [44%N].
  intros Heq%(app_inv_head [91%N]).
  revert a2 Heq. induction a1 as [|x a1 IH]; intros [|y a2] Heq.
  - done.
  - rewrite fmap_cons, join_cons in Heq. done.
  - rewrite fmap_cons, join_cons in Heq. done.
  - rewrite !fmap_cons, !join_cons, <- !app_assoc in Heq.
    apply QuoteJSONString_app_inj in Heq as [-> Heq]. f_equal.
    destruct a1 as [|x1 a1], a2 as [|y1 a2]; [done|done|done|].
    apply IH. rewrite (fmap_cons _ x1), (fmap_cons _ y1) in Heq.
    cbv beta iota in Heq. rewrite <- !app_assoc in Heq.
    apply (app_inv_head [44%N]) in Heq. by rewrite !fmap_cons.
Qed.

(** ** The judgement of the review screen *)

Lemma sort_of_sorted a : StronglySorted str_le a → sort a = a.
Proof.
  intros Ha. apply (StronglySorted_unique str_le); [apply sort_sorted|done|].
  apply sort_Permutation.
Qed.

Lemma sort_eq_Permutation a b : sort a = sort b ↔ a ≡ₚ b.
Proof.
  split.
  - intros Heq. by rewrite <- (sort_Permutation a), Heq, sort_Permutation.
  - intros Hp. apply (StronglySorted_unique str_le); [apply sort_sorted..|].
    by rewrite !sort_Permutation.
Qed.

Lemma concat_split_units s : concat (split_units s) = s.
Proof. induction s as [|c s IH]; [done|]. simpl. by rewrite IH. Qed.

Lemma split_units_concat (r : list jsstring) :
  Forall (λ a, length a = 1) r → split_units (concat r) = r.
Proof.
  induction 1 as [|a r Ha Hr IH]; [done|].
  destruct a as [|c [|??]]; try done. simpl. by rewrite IH.
Qed.

Lemma isCorrect_Permutation q userAnswers :
  isCorrect q userAnswers = true ↔ userAnswers ≡ₚ split_units (gold q).
Proof.
  unfold isCorrect. rewrite bool_decide_eq_true, <- sort_eq_Permutation.
  split; [apply JSON_stringify_inj | by intros ->].
Qed.

(** X5. The review screen gives one judgement per question, in order, and
    judges a question correct exactly when its answer record (the empty
    record when none is stored) is a rearrangement of the code units of the
    answer string, each taken as a one-unit string; the comparison of JSON
    texts never confuses two different arrays. *)
Theorem review_judgements questions answers :
  length (review questions answers) = length questions ∧
  ∀ i q, questions !! i = Some q →
    ∃ judgement,
      review questions answers !! i = Some judgement ∧
      (judgement = true ↔ default [] (answers !! i) ≡ₚ split_units (gold q)).
Proof.
  unfold review. split; [apply length_imap|]. intros i q Hq.
  eexists. split; [by rewrite list_lookup_imap, Hq|].
  apply isCorrect_Permutation.
Qed.

Lemma review_judgements_witness :
  ∃ judgement,
    review [sample_question "math" "1"] {[0 := [lit "A"]]} !! 0 = Some judgement ∧
    (judgement = true ↔
     default [] (({[0 := [lit "A"]]} : gmap nat (list jsstring)) !! 0)
     ≡ₚ split_units (gold (sample_question "math" "1"))).
Proof.
  apply (proj2 (review_judgements [sample_question "math" "1"]
                  {[0 := [lit "A"]]}) 0 (sample_question "math" "1")).
  reflexivity.
Defined.

Lemma toggles_record_elem st options a :
  record st = [] → a ∈ record (toggles st options) → a ∈ options.
Proof.
  intros Hempty Hin. apply (record_toggles_odd st options a Hempty) in Hin.
  destruct (filter (λ o, o = a) options) as [|o l] eqn:Hf; [done|].
  assert (o ∈ filter (λ o, o = a) options) as Ho by (rewrite Hf; by left).
  by apply list_elem_of_filter in Ho as [-> ?].
Qed.

(** X6. On a multiple-choice question answered by toggling one-letter
    options, the score counts the question exactly when the review judges
    it correct and the letters of the answer string are in ascending order:
    a counted question is always shown correct, and a question shown
    correct is not counted when the bank lists its letters out of order. *)
Theorem review_agrees_multiple st options q :
  record st = [] →
  Forall (λ o, length o = 1) options →
  type q = MCQ_multiple →
  judged_correct q (record (toggles st options)) ↔
  isCorrect q (record (toggles st options)) = true ∧
  StronglySorted str_le (split_units (gold q)).
Proof.
  intros Hempty Hone Htype.
  destruct (record_invariant st options) as [Hs _];
    [rewrite Hempty; constructor..|].
  assert (Forall (λ a, length a = 1) (record (toggles st options))) as Hr.
  { apply Forall_forall. intros a Ha%(toggles_record_elem st options a Hempty).
    by eapply Forall_forall in Hone. }
  unfold judged_correct. rewrite decide_True by done.
  rewrite isCorrect_Permutation. split.
  - intros Hgold. rewrite <- Hgold, split_units_concat by done. done.
  - intros [Hp Hg]. rewrite <- (concat_split_units (gold q)). f_equal.
    by apply (StronglySorted_unique str_le).
Qed.

Lemma review_agrees_multiple_witness :
  let q := Build_Question [] MCQ_multiple (lit "CA") [] in
  let r := record (toggles initial [lit "C"; lit "A"]) in
  ¬ judged_correct q r ∧ isCorrect q r = true.
Proof.
  intros q r.
  pose proof (review_agrees_multiple initial [lit "C"; lit "A"] q
                ltac:(reflexivity) ltac:(repeat constructor) ltac:(reflexivity))
    as Hiff.
  split.
  - intros Hj. apply Hiff in Hj as [_ Hs]. vm_compute in Hs.
    inversion Hs as [|?? _ Hfa]. inversion Hfa as [|?? Hle _]. done.
  - vm_compute. reflexivity.
Defined.

(** X7. On a question of any other type, answered by handleAnswer, the
    score counts the question when the answer is the answer string, but the
    review judges it correct only if in addition the answer string is one
    code unit long: a right answer of several characters, such as a number
    of two digits, is counted and shown as wrong. *)
Theorem review_single_answer now a st q :
  type q ≠ MCQ_multiple →
  record (handleAnswer now a st) = [a] ∧
  (judged_correct q (record (handleAnswer now a st)) ↔ a = gold q) ∧
  (isCorrect q (record (handleAnswer now a st)) = true ↔
   a = gold q ∧ length (gold q) = 1).
Proof.
  intros Htype.
  assert (record (handleAnswer now a st) = [a]) as ->.
  { unfold record, handleAnswer.
    destruct (truthy_time (questionStartTime st)); simpl;
      by rewrite lookup_insert_eq. }
  split; [done|]. split.
  - unfold judged_correct. rewrite decide_False by done. simpl.
    split; [by intros [= ->] | by intros ->].
  - rewrite isCorrect_Permutation. split.
    + intros Hp. symmetry in Hp. apply Permutation_singleton_r in Hp.
      destruct (gold q) as [|c [|??]]; try done.
      simpl in Hp. by injection Hp as <-.
    + intros [-> Hlen]. destruct (gold q) as [|c [|??]]; done.
Qed.

Lemma review_single_answer_witness :
  let q := Build_Question [] (lit "Integer") (lit "12") [] in
  judged_correct q (record (handleAnswer 0 (lit "12") initial)) ∧
  isCorrect q (record (handleAnswer 0 (lit "12") initial)) = false.
Proof.
  intros q.
  destruct (review_single_answer 0 (lit "12") initial q) as (_ & Hj & Hc).
  - vm_compute. discriminate.
  - split; [by apply Hj|].
    apply not_true_is_false. intros E.
    apply Hc in E as [_ Hlen]. vm_compute in Hlen. discriminate.
Defined.

(** ** The answers of a session *)

Lemma state_render {rng} bank (sort_random : list Question → rng → list Question * rng)
    st cell g :
  state (render bank sort_random st cell g) = st.
Proof.
  unfold render.
  by destruct (useMemo cell _ _ g) as [[??]?].
Qed.

Lemma handleMultiAnswer_sorted answer st :
  StronglySorted str_le (record st) →
  StronglySorted str_le (record (handleMultiAnswer answer st)).
Proof.
  intros Hs. rewrite record_handleMultiAnswer. case_bool_decide.
  - by apply StronglySorted_filter.
  - apply sort_sorted.
Qed.

(** Every event leaves every stored record sorted. *)
Lemma handle_sorted {rng} e (s : @Session rng) :
  (∀ i r, answers (state s) !! i = Some r → StronglySorted str_le r) →
  ∀ i r, answers (handle e s) !! i = Some r → StronglySorted str_le r.
Proof.
  intros Hinv i r. destruct e; unfold handle; try apply Hinv.
  - destruct (truthy_string _ && _); apply Hinv.
  - unfold handleAnswer.
    destruct (truthy_time (questionStartTime (state s))); simpl;
      (destruct (decide (i = currentQuestion (state s))) as [->|Hne];
       [rewrite lookup_insert_eq; intros [= <-]; repeat constructor
       |rewrite lookup_insert_ne by done; apply Hinv]).
  - destruct (decide (i = currentQuestion (state s))) as [->|Hne].
    + intros Hr.
      assert (record (handleMultiAnswer answer (state s)) = r) as <-.
      { unfold record. rewrite handleMultiAnswer_currentQuestion. by rewrite Hr. }
      apply handleMultiAnswer_sorted. unfold record.
      destruct (answers (state s) !! currentQuestion (state s)) as [r0|] eqn:E;
        [by eapply Hinv|constructor].
    + rewrite answers_handleMultiAnswer_ne by done. apply Hinv.
  - unfold handleNext. case_bool_decide; apply Hinv.
  - case_bool_decide; apply Hinv.
Qed.

Lemma run_sorted {rng} bank (sort_random : list Question → rng → list Question * rng)
    (s : @Session rng) events :
  (∀ i r, answers (state s) !! i = Some r → StronglySorted str_le r) →
  ∀ i r, answers (state (run bank sort_random s events)) !! i = Some r →
         StronglySorted str_le r.
Proof.
  revert s. induction events as [|e events IH]; intros s Hinv; [done|].
  simpl. apply IH. unfold step. rewrite state_render. by apply handle_sorted.
Qed.

Lemma review_sort_sorted questions answers :
  (∀ i r, answers !! i = Some r → StronglySorted str_le r) →
  review_sort questions answers = answers.
Proof.
  intros Hinv. unfold review_sort, forEach. generalize 0.
  induction questions as [|q questions IH]; intros k; [done|].
  simpl. rewrite alter_id; [apply IH|].
  intros r Hr. apply sort_of_sorted. by eapply Hinv.
Qed.

(** X8. The review screen sorts the stored answer records in place, and
    this never changes the answers of a session: whatever the user did
    since the page was loaded, every stored record is already sorted. *)
Theorem review_sort_unchanged {rng} bank
    (sort_random : list Question → rng → list Question * rng) g events :
  let s := run bank sort_random (mountApp bank sort_random g) events in
  (∀ i r, answers (state s) !! i = Some r → StronglySorted str_le r) ∧
  review_sort (questions s) (answers (state s)) = answers (state s).
Proof.
  intros s.
  assert (∀ i r, answers (state s) !! i = Some r → StronglySorted str_le r) as Hs.
  { apply run_sorted. unfold mountApp. rewrite state_render. intros i r.
    change (answers initial) with (∅ : gmap nat (list jsstring)).
    by rewrite lookup_empty. }
  split; [done|]. by apply review_sort_sorted.
Qed.

Lemma review_sort_unchanged_witness :
  StronglySorted str_le [lit "A"; lit "C"].
Proof.
  apply (proj1 (review_sort_unchanged sample_bank sort_flip []
                  [MultiAnswer (lit "C"); MultiAnswer (lit "A")]) 0).
  vm_compute. reflexivity.
Defined.

(** X9. Answering a question again replaces what the first answer stored:
    the record and the time of the current question are those of the last
    answer alone, the time is measured from the start of the visit (not
    added to an earlier one), and no other question is touched. *)
Theorem handleAnswer_last_wins now1 a1 now2 a2 st :
  answers (handleAnswer now2 a2 (handleAnswer now1 a1 st)) =
    answers (handleAnswer now2 a2 st) ∧
  timePerQuestion (handleAnswer now2 a2 (handleAnswer now1 a1 st)) =
    timePerQuestion (handleAnswer now2 a2 st) ∧
  (∀ j, j ≠ currentQuestion st →
     answers (handleAnswer now1 a1 st) !! j = answers st !! j ∧
     timePerQuestion (handleAnswer now1 a1 st) !! j = timePerQuestion st !! j) ∧
  (∀ start, questionStartTime st = Some start → start ≠ 0%Z →
     timePerQuestion (handleAnswer now1 a1 st) !! currentQuestion st =
       Some (now1 - start)%Z) ∧
  (truthy_time (questionStartTime st) = false →
     timePerQuestion (handleAnswer now1 a1 st) = timePerQuestion st).
Proof.
  unfold handleAnswer.
  destruct (truthy_time (questionStartTime st)) eqn:Ht; simpl; rewrite ?Ht; simpl.
  - split; [apply insert_insert_eq|]. split; [apply insert_insert_eq|]. split.
    + intros j Hj. by rewrite !lookup_insert_ne.
    + split; [|done]. intros start Hstart _. by rewrite Hstart, lookup_insert_eq.
  - split; [apply insert_insert_eq|]. split; [done|]. split.
    + intros j Hj. by rewrite lookup_insert_ne.
    + split; [|done]. intros start Hstart Hne. rewrite Hstart in Ht. simpl in Ht.
      apply negb_false_iff, Z.eqb_eq in Ht. done.
Qed.

Lemma handleAnswer_last_wins_witness :
  let st := setQuestionStartTime (Some 1000%Z) initial in
  timePerQuestion (handleAnswer 9000 (lit "B") (handleAnswer 4000 (lit "A") st))
    !! 0 = Some 8000%Z.
Proof.
  intros st.
  destruct (handleAnswer_last_wins 4000 (lit "A") 9000 (lit "B") st)
    as (_ & -> & _).
  destruct (handleAnswer_last_wins 9000 (lit "B") 0 [] st) as (_ & _ & _ & Ht & _).
  apply (Ht 1000%Z); [reflexivity|discriminate].
Defined.

(** X10. Only handleAnswer writes a time: a session in which no question
    is answered through handleAnswer (multiple-choice questions are
    answered by toggles) keeps the times it had, so the review shows no
    time for its questions. *)
Theorem times_only_from_handleAnswer {rng} bank
    (sort_random : list Question → rng → list Question * rng)
    (s : @Session rng) events :
  Forall (λ e, ∀ now answer, e ≠ Answer now answer) events →
  timePerQuestion (state (run bank sort_random s events)) =
  timePerQuestion (state s).
Proof.
  intros Hev. revert s. induction Hev as [|e events He Hev IH]; intros s; [done|].
  simpl. rewrite IH. unfold step. rewrite state_render.
  destruct e; unfold handle; try done.
  - by destruct (truthy_string _ && _).
  - by destruct (He now answer).
  - unfold handleNext. by case_bool_decide.
  - by case_bool_decide.
Qed.

Lemma times_only_from_handleAnswer_witness :
  timePerQuestion
    (state (run sample_bank sort_flip (mountApp sample_bank sort_flip [])
              [SelectSubject (lit "math"); QuestionStarted 5;
               MultiAnswer (lit "A"); MultiAnswer (lit "C"); Next])) = ∅.
Proof.
  apply (times_only_from_handleAnswer sample_bank sort_flip
           (mountApp sample_bank sort_flip [])).
  repeat constructor; discriminate.
Defined.

(** X11. From the empty record, toggling an option twice in a row leaves
    the record as it was, whether the option was selected or not. *)
Theorem toggle_twice st options answer :
  record st = [] →
  record (handleMultiAnswer answer
            (handleMultiAnswer answer (toggles st options))) =
  record (toggles st options).
Proof.
  intros Hempty.
  destruct (record_invariant st options) as [Hs Hnd];
    [rewrite Hempty; constructor..|].
  set (r := record (toggles st options)) in *.
  rewrite record_handleMultiAnswer, (record_handleMultiAnswer answer (toggles st options)).
  fold r. destruct (decide (answer ∈ r)) as [Hin|Hin].
  - rewrite (bool_decide_eq_true_2 (answer ∈ r)) by done.
    rewrite bool_decide_eq_false_2.
    2:{ rewrite list_elem_of_filter. by intros [? _]. }
    apply (StronglySorted_unique str_le); [apply sort_sorted|done|].
    rewrite sort_Permutation.
    destruct (filter_remove_one answer r Hnd Hin) as (b & a & Hr & ->).
    rewrite Hr, <- app_assoc. f_equiv. symmetry. apply Permutation_cons_append.
  - rewrite (bool_decide_eq_false_2 (answer ∈ r)) by done.
    rewrite bool_decide_eq_true_2.
    2:{ rewrite sort_Permutation, elem_of_app, list_elem_of_singleton. by right. }
    apply (StronglySorted_unique str_le);
      [apply StronglySorted_filter, sort_sorted|done|].
    rewrite sort_Permutation, filter_app, filter_cons, filter_nil.
    rewrite decide_False by (intros H; by apply H).
    rewrite app_nil_r, filter_all; [done|].
    apply Forall_forall. by intros a Ha ->.
Qed.

Lemma toggle_twice_witness :
  record (handleMultiAnswer (lit "B")
            (handleMultiAnswer (lit "B") (toggles initial [lit "C"; lit "A"]))) =
  record (toggles initial [lit "C"; lit "A"]).
Proof. apply (toggle_twice initial [lit "C"; lit "A"] (lit "B")). reflexivity. Defined.

(** X12. An answer record, once stored, is never deleted by any event of
    the session; and after a first toggle the Next button of the question
    stays enabled through any further toggles, also when they leave no
    option selected. *)
Theorem answers_never_deleted {rng} bank
    (sort_random : list Question → rng → list Question * rng)
    (s : @Session rng) events i :
  is_Some (answers (state s) !! i) →
  is_Some (answers (state (run bank sort_random s events)) !! i) ∧
  (∀ st answer options,
     nextDisabled (toggles (handleMultiAnswer answer st) options) = false) ∧
  record (toggles (handleMultiAnswer (lit "A") initial) [lit "A"]) = [].
Proof.
  intros Hi. split; [|split].
  - revert s Hi. induction events as [|e events IH]; intros s Hi; [done|].
    simpl. apply IH. unfold step. rewrite state_render.
    destruct e; unfold handle; try done.
    + by destruct (truthy_string _ && _).
    + unfold handleAnswer.
      destruct (truthy_time (questionStartTime (state s))); simpl;
        rewrite lookup_insert_is_Some; destruct (decide (currentQuestion (state s) = i));
        auto.
    + unfold handleMultiAnswer. simpl. rewrite lookup_insert_is_Some.
      destruct (decide (currentQuestion (state s) = i)); auto.
    + unfold handleNext. by case_bool_decide.
    + by case_bool_decide.
  - intros st answer options. unfold nextDisabled.
    apply bool_decide_eq_false_2. rewrite toggles_currentQuestion.
    rewrite handleMultiAnswer_currentQuestion.
    induction options as [|o options IH] using rev_ind.
    + simpl. unfold handleMultiAnswer. simpl. by rewrite lookup_insert_eq.
    + rewrite toggles_snoc. unfold handleMultiAnswer at 1. simpl.
      rewrite toggles_currentQuestion, handleMultiAnswer_currentQuestion.
      by rewrite lookup_insert_eq.
  - vm_compute. reflexivity.
Qed.

Lemma answers_never_deleted_witness :
  is_Some (answers
             (state (run sample_bank sort_flip
                       (step sample_bank sort_flip
                          (mountApp sample_bank sort_flip [])
                          (MultiAnswer (lit "A")))
                       [MultiAnswer (lit "A"); Next; GoTo 0])) !! 0).
Proof.
  apply (answers_never_deleted sample_bank sort_flip
           (step sample_bank sort_flip (mountApp sample_bank sort_flip [])
                 (MultiAnswer (lit "A")))
           [MultiAnswer (lit "A"); Next; GoTo 0] 0).
  vm_compute. eauto.
Defined.

(** ** Scoring bounds *)

Lemma length_filter_imap {A B} (P : A → Prop) `{∀ x, Decision (P x)}
    (f : nat → B) (l : list A) :
  length (filter (λ ix : B * A, P ix.2) (imap (λ i x, (f i, x)) l)) =
  length (filter P l).
Proof.
  revert f. induction l as [|x l IH]; intros f; [done|].
  simpl. rewrite !filter_cons. simpl.
  specialize (IH (f ∘ S)).
  destruct (decide (P x)); simpl; by rewrite <- IH.
Qed.

(** X13. The score is at most the number of questions; and with no answer
    stored it counts exactly the multiple-choice questions whose answer
    string is empty, so it is zero when every answer string is non-empty. *)
Theorem calculateScore_bounds questions answers :
  calculateScore questions answers ≤ length questions ∧
  calculateScore questions ∅ =
    length (filter (λ q, type q = MCQ_multiple ∧ gold q = []) questions) ∧
  (Forall (λ q, gold q ≠ []) questions → calculateScore questions ∅ = 0).
Proof.
  assert (calculateScore questions ∅ =
          length (filter (λ q, type q = MCQ_multiple ∧ gold q = []) questions))
    as Hempty.
  { rewrite calculateScore_count.
    rewrite <- (length_filter_imap (λ q, type q = MCQ_multiple ∧ gold q = []) id).
    f_equal. apply list_filter_iff. intros [i q]. simpl.
    rewrite lookup_empty. simpl. unfold judged_correct.
    destruct (decide (type q = MCQ_multiple)); simpl; split;
      try done; try tauto; intros [? ?]; done. }
  split; [|split; [done|]].
  - rewrite calculateScore_count.
    etrans; [apply length_filter|]. by rewrite length_imap.
  - intros Hgold. rewrite Hempty. clear Hempty.
    induction Hgold as [|q l Hq Hl IH]; [done|].
    rewrite filter_cons, decide_False by (intros [_ ?]; done). done.
Qed.

Lemma calculateScore_bounds_witness : calculateScore sample_bank ∅ = 0.
Proof.
  apply (proj2 (proj2 (calculateScore_bounds sample_bank ∅))).
  repeat constructor; discriminate.
Defined.

(** ** Navigation and the screens of App *)

Section NavigationFacts.

Context {rng : Type}.
Variable bank : list Question.
Variable sort_random : list Question → rng → list Question * rng.

(** While the subject stays as chosen the questions stay as drawn, and a
    property of the state that every event keeps holds after any run. *)
Lemma run_fixed_questions (s : @Session rng) chosen qs (I : State → Prop) events :
  selectedSubject (state s) = Some chosen →
  memo s = Some (Some chosen, qs) →
  questions s = qs →
  Forall (λ e, ∀ c, e ≠ SelectSubject c) events →
  (∀ e (s' : @Session rng),
     (∀ c, e ≠ SelectSubject c) → questions s' = qs →
     I (state s') → I (handle e s')) →
  I (state s) →
  I (state (run bank sort_random s events)) ∧
  questions (run bank sort_random s events) = qs ∧
  selectedSubject (state (run bank sort_random s events)) = Some chosen.
Proof.
  intros Hsel Hmemo Hqs Hev Hkeep. revert s Hsel Hmemo Hqs.
  induction Hev as [|e events He Hev IH]; intros s Hsel Hmemo Hqs HI; [done|].
  assert (selectedSubject (handle e s) = Some chosen) as Hh
    by by rewrite handle_selectedSubject.
  assert (step bank sort_random s e =
          mkSession (handle e s) (Some (Some chosen, qs)) (random s) qs) as Hstep.
  { unfold step. rewrite Hmemo. by apply render_memo. }
  simpl. rewrite Hstep. apply IH; try done. simpl. by apply Hkeep.
Qed.

(** The session right after the choice of a subject. *)
Lemma select_session chosen g :
  chosen ≠ [] →
  step bank sort_random (mountApp bank sort_random g) (SelectSubject chosen) =
  mkSession (setSelectedSubject (Some chosen) initial)
            (Some (Some chosen, (filteredQuestions bank sort_random (Some chosen) g).1))
            (filteredQuestions bank sort_random (Some chosen) g).2
            (filteredQuestions bank sort_random (Some chosen) g).1.
Proof.
  intros Hne.
  assert (mountApp bank sort_random g =
          mkSession initial (Some (None, [])) g []) as Hmount by done.
  unfold step. rewrite Hmount.
  change (handle (SelectSubject chosen) (mkSession initial (Some (None, [])) g []))
    with (setSelectedSubject (Some chosen) initial).
  unfold render, useMemo.
  change (selectedSubject (setSelectedSubject (Some chosen) initial))
    with (Some chosen).
  cbn [memo random]. destruct (decide (None = Some chosen)); [done|].
  by destruct (filteredQuestions bank sort_random (Some chosen) g) as [qs g'].
Qed.

Lemma handle_index_in_bounds e (s : @Session rng) :
  currentQuestion (state s) < length (questions s) →
  currentQuestion (handle e s) < length (questions s).
Proof.
  intros Hlt. destruct e; unfold handle; try done.
  - by destruct (truthy_string _ && _).
  - unfold handleAnswer. by destruct (truthy_time (questionStartTime (state s))).
  - unfold handleNext. case_bool_decide; simpl; [lia|done].
  - by case_bool_decide.
Qed.

Hypothesis sort_random_Permutation : ∀ l g, (sort_random l g).1 ≡ₚ l.

(** X14. Once a subject with at least one question is chosen, the index of
    the current question stays inside the questions of the session whatever
    the user does (Next, jumps, answers, review), so App always returns a
    screen: the current question it reads is always defined, and the quiz
    screen shows the question at the current index. *)
Theorem quiz_screen_defined chosen g events :
  chosen ≠ [] →
  filter (λ q, subject q = chosen) bank ≠ [] →
  Forall (λ e, ∀ c, e ≠ SelectSubject c) events →
  let s := run bank sort_random
             (step bank sort_random (mountApp bank sort_random g)
                   (SelectSubject chosen)) events in
  currentQuestion (state s) < length (questions s) ∧
  (∃ view, App_screen s = Ok view) ∧
  (showResults (state s) = false → isReviewMode (state s) = false →
   ∃ q, questions s !! currentQuestion (state s) = Some q ∧
        App_screen s = Ok (QuizScreen q)).
Proof using sort_random_Permutation.
  intros Hne Havail Hev s.
  destruct (filteredQuestions_chosen bank sort_random sort_random_Permutation
              chosen g Hne) as (sorted & Hperm & Htake).
  set (qs := (filteredQuestions bank sort_random (Some chosen) g).1) in *.
  assert (0 < length qs) as Hpos.
  { rewrite Htake, length_take, Hperm.
    destruct (filter (λ q, subject q = chosen) bank); [done|simpl; lia]. }
  assert (∀ e (s' : @Session rng),
            (∀ c, e ≠ SelectSubject c) → questions s' = qs →
            currentQuestion (state s') < length qs →
            currentQuestion (handle e s') < length qs) as Hkeep.
  { intros e s' _ <-. apply handle_index_in_bounds. }
  pose proof (select_session chosen g Hne) as Hs0. fold qs in Hs0.
  destruct (run_fixed_questions
              (step bank sort_random (mountApp bank sort_random g)
                    (SelectSubject chosen))
              chosen qs (λ st, currentQuestion st < length qs) events)
    as (Hidx & Hqs & Hsel); [by rewrite Hs0..|done|done|by rewrite Hs0|].
  fold s in Hidx, Hqs, Hsel.
  destruct (lookup_lt_is_Some_2 (questions s) (currentQuestion (state s)))
    as [q Hq]; [by rewrite Hqs|].
  assert (truthy_string (selectedSubject (state s)) = true) as Htruthy.
  { rewrite Hsel. by destruct chosen. }
  split; [by rewrite Hqs|]. unfold App_screen. rewrite Htruthy, Hq. split.
  - destruct (showResults (state s) && negb (isReviewMode (state s))); [eauto|].
    destruct (isReviewMode (state s)); eauto.
  - intros -> ->. simpl. eauto.
Qed.

(** X15. Choosing a subject for which the bank has no question breaks the
    quiz screen: App reads a property of the missing current question, a
    TypeError of the runtime. *)
Theorem empty_subject_TypeError chosen g :
  chosen ≠ [] →
  filter (λ q, subject q = chosen) bank = [] →
  App_screen (step bank sort_random (mountApp bank sort_random g)
                   (SelectSubject chosen)) = Throw TypeError.
Proof using sort_random_Permutation.
  intros Hne Havail.
  destruct (filteredQuestions_chosen bank sort_random sort_random_Permutation
              chosen g Hne) as (sorted & Hperm & Htake).
  rewrite Havail in Hperm. apply Permutation_nil_r in Hperm. subst sorted.
  rewrite select_session by done. rewrite Htake.
  unfold App_screen. by destruct chosen.
Qed.

End NavigationFacts.

Lemma quiz_screen_defined_witness :
  let s := run sample_bank sort_flip
             (step sample_bank sort_flip (mountApp sample_bank sort_flip [true])
                   (SelectSubject (lit "math")))
             [Next; GoTo 7; Next; Next; GoTo 4; Answer 3 (lit "B")] in
  currentQuestion (state s) < length (questions s) ∧
  (∃ view, App_screen s = Ok view) ∧
  (showResults (state s) = false → isReviewMode (state s) = false →
   ∃ q, questions s !! currentQuestion (state s) = Some q ∧
        App_screen s = Ok (QuizScreen q)).
Proof.
  apply (quiz_screen_defined sample_bank sort_flip sort_flip_Permutation
           (lit "math") [true]
           [Next; GoTo 7; Next; Next; GoTo 4; Answer 3 (lit "B")]).
  - vm_compute. discriminate.
  - vm_compute. discriminate.
  - repeat constructor; discriminate.
Defined.

Lemma empty_subject_TypeError_witness :
  App_screen (step sample_bank sort_flip (mountApp sample_bank sort_flip [])
                   (SelectSubject (lit "bio"))) = Throw TypeError.
Proof.
  apply (empty_subject_TypeError sample_bank sort_flip sort_flip_Permutation
           (lit "bio") []).
  - vm_compute. discriminate.
  - vm_compute. reflexivity.
Defined.

(** X16. Pressing Next moves one question forward until the last question
    and then shows the results without moving: after k presses from an
    index inside the questions, the index is the smaller of the index plus
    k and the last index, the results are shown exactly when k exceeds the
    distance to the last index, and the answers are untouched; no answer is
    needed for handleNext to go on. *)
Theorem handleNext_iter questions st k :
  currentQuestion st ≤ length questions - 1 →
  currentQuestion (Nat.iter k (handleNext questions) st) =
    min (currentQuestion st + k) (length questions - 1) ∧
  showResults (Nat.iter k (handleNext questions) st) =
    showResults st || bool_decide (length questions - 1 - currentQuestion st < k) ∧
  answers (Nat.iter k (handleNext questions) st) = answers st.
Proof.
  intros Hle. induction k as [|k (Hidx & Hres & Hans)].
  - change (Nat.iter 0 (handleNext questions) st) with st.
    split; [lia|]. split; [|done].
    rewrite bool_decide_eq_false_2 by lia. by rewrite orb_false_r.
  - rewrite Nat.iter_succ. set (st' := Nat.iter k (handleNext questions) st) in *.
    unfold handleNext.
    destruct (decide (currentQuestion st' < length questions - 1)) as [Hlt|Hge].
    + rewrite !(bool_decide_eq_true_2 (currentQuestion st' < _)) by done.
      cbn [currentQuestion showResults answers setCurrentQuestion].
      rewrite Hidx, Hres, Hans. split; [lia|]. split; [|done].
      f_equal. apply bool_decide_ext. lia.
    + rewrite !(bool_decide_eq_false_2 (currentQuestion st' < _)) by done.
      cbn [currentQuestion showResults answers setShowResults].
      rewrite Hidx, Hans. split; [lia|]. split; [|done].
      rewrite (bool_decide_eq_true_2 (_ < S k)) by lia. by rewrite orb_true_r.
Qed.

Lemma handleNext_iter_witness :
  currentQuestion (Nat.iter 5 (handleNext sample_bank) initial) = 5 ∧
  showResults (Nat.iter 6 (handleNext sample_bank) initial) = false ∧
  showResults (Nat.iter 7 (handleNext sample_bank) initial) = true.
Proof.
  destruct (handleNext_iter sample_bank initial 5) as (H5 & _); [simpl; lia|].
  destruct (handleNext_iter sample_bank initial 6) as (_ & H6 & _); [simpl; lia|].
  destruct (handleNext_iter sample_bank initial 7) as (_ & H7 & _); [simpl; lia|].
  rewrite H5, H6, H7. repeat split.
Defined.

(** X17. The results are final: once showResults is set no event of the
    session clears it, and from then on App returns the results screen or
    the review screen, never the quiz or the subject selection. *)
Theorem results_are_final {rng} bank
    (sort_random : list Question → rng → list Question * rng)
    (s : @Session rng) events :
  showResults (state s) = true →
  showResults (state (run bank sort_random s events)) = true ∧
  ∃ view, App_screen (run bank sort_random s events) = Ok view ∧
          match view with
          | ResultsScreen _ _ | ReviewScreen _ => True
          | SubjectSelectionScreen | QuizScreen _ => False
          end.
Proof.
  intros Hres.
  assert (showResults (state (run bank sort_random s events)) = true) as Hfinal.
  { revert s Hres. induction events as [|e events IH]; intros s Hres; [done|].
    simpl. apply IH. unfold step. rewrite state_render.
    destruct e; unfold handle; try done.
    - by destruct (truthy_string _ && _).
    - unfold handleAnswer. by destruct (truthy_time (questionStartTime (state s))).
    - unfold handleNext. by case_bool_decide.
    - by case_bool_decide. }
  split; [done|]. unfold App_screen. rewrite Hfinal.
  destruct (isReviewMode (state (run bank sort_random s events))); simpl;
    (eexists; split; [reflexivity|exact I]).
Qed.

Lemma results_are_final_witness :
  showResults
    (state (run sample_bank sort_flip
              (step sample_bank sort_flip (mountApp sample_bank sort_flip []) Next)
              [GoTo 0; ReviewAnswers; BackToResults; Next])) = true.
Proof.
  apply (results_are_final sample_bank sort_flip
           (step sample_bank sort_flip (mountApp sample_bank sort_flip []) Next)
           [GoTo 0; ReviewAnswers; BackToResults; Next]).
  vm_compute. reflexivity.
Defined.

(** ** The export *)

Lemma split_unit_first (c : N) pre rest :
  c ∉ pre → split [c] (pre ++ c :: rest) = pre :: split [c] rest.
Proof.
  induction pre as [|x pre IH]; intros Hc.
  - simpl. rewrite split_unit_cons. by rewrite N.eqb_refl.
  - apply not_elem_of_cons in Hc as [Hne Hc]. simpl.
    rewrite split_unit_cons.
    destruct (N.eqb_spec c x) as [->|_]; [done|]. by rewrite IH.
Qed.

(** X18. exportToPDF always ends with the exporting flag cleared, whether
    the rasteriser or the writer throws or not, and no exception leaves it;
    it saves one file, named quiz-review-, the date part of the ISO time
    (the text before its T) and .pdf, exactly when both collaborators
    succeed; without the review element it does nothing. *)
Theorem exportToPDF_outcome {element canvas}
    (html2canvas : element → result canvas)
    (save : canvas → jsstring → result unit) content date time exporting :
  84%N ∉ date →
  exportToPDF html2canvas save (Some content) (date ++ lit "T" ++ time) exporting =
    (false,
     match html2canvas content with
     | Ok image =>
         match save image (lit "quiz-review-" ++ date ++ lit ".pdf") with
         | Ok _ => [lit "quiz-review-" ++ date ++ lit ".pdf"]
         | Throw _ => []
         end
     | Throw _ => []
     end) ∧
  exportToPDF html2canvas save None (date ++ lit "T" ++ time) exporting =
    (exporting, []).
Proof.
  intros Hdate. split; [|done]. unfold exportToPDF, pdf_name.
  change (date ++ lit "T" ++ time) with (date ++ 84%N :: time).
  change (lit "T") with [84%N]. rewrite (split_unit_first 84 date time Hdate).
  simpl. destruct (html2canvas content) as [image|]; simpl; [|done].
  by destruct (save image _).
Qed.

Lemma exportToPDF_outcome_witness :
  exportToPDF (λ _ : unit, Ok tt) (λ _ _, Ok tt) (Some tt)
              (lit "2024-05-06" ++ lit "T" ++ lit "10:11:12.000Z") true =
  (false, [lit "quiz-review-2024-05-06.pdf"]).
Proof.
  refine (proj1 (exportToPDF_outcome (λ _ : unit, Ok tt) (λ _ _, Ok tt) tt
                   (lit "2024-05-06") (lit "10:11:12.000Z") true _)).
  compute_done.
Defined.

(** ** Mounting a rendered body *)

Lemma mapM_Ok_id (f : node → result node) (l : list node) :
  Forall (λ n, f n = Ok n) l → mapM f l = Ok l.
Proof.
  induction 1 as [|n l Hn Hl IH]; [done|]. simpl. by rewrite Hn, IH.
Qed.

Lemma flatten_paragraph_node katex segment :
  Forall (λ n, ∃ children, n = P children) (flatten (paragraph_node katex segment)).
Proof.
  unfold paragraph_node. destruct (decide (trim segment = [])); simpl;
    [constructor|constructor; [eauto|constructor]].
Qed.

Lemma display_blocks_shape katex text :
  Forall (λ n, (∃ children, n = P children) ∨ (∃ html, n = DisplayDiv html) ∨
               (∃ raw, n = DivText raw))
         (display_blocks katex text).
Proof.
  unfold display_blocks. rewrite flatten_Fragment.
  induction (split_by display_match text) as [|part parts IH]; [constructor|].
  rewrite fmap_cons, bind_cons. apply Forall_app. split; [|done].
  unfold part_node. destruct (is_region part).
  - rewrite flatten_display_block. constructor; [|constructor].
    unfold display_block. destruct (katex true _); eauto.
  - rewrite flatten_Arr. induction (split_newlines part) as [|segment l IHl];
      [constructor|].
    rewrite fmap_cons, bind_cons. apply Forall_app. split; [|done].
    eapply Forall_impl; [apply flatten_paragraph_node|]. intros n [? ->]; eauto.
Qed.

(** X19. A body that contains both display markers always mounts: its
    blocks are paragraphs and display blocks only, no Table element is
    among them, and so neither the typesetting engine nor a malformed table
    can make the render of such a body throw. *)
Theorem display_body_mounts katex text :
  includes display_open text = true →
  includes display_close text = true →
  ∃ tree,
    renderMath katex text = Ok tree ∧
    Forall (λ n, (∃ children, n = P children) ∨ (∃ html, n = DisplayDiv html) ∨
                 (∃ raw, n = DivText raw)) (flatten tree) ∧
    mount katex tree = Ok (flatten tree).
Proof.
  intros Ho Hc. rewrite renderMath_display, renderDisplay_Ok by done.
  eexists. split; [done|].
  pose proof (display_blocks_shape katex text) as Hshape.
  unfold display_blocks in Hshape. split; [done|].
  unfold mount. apply mapM_Ok_id.
  eapply Forall_impl; [exact Hshape|].
  intros n [[? ->]|[[? ->]|[? ->]]]; done.
Qed.

Lemma display_body_mounts_witness :
  ∃ tree,
    renderMath katex_failing
      (lit "\[x\]\begin{center}\begin{tabular}\hline\end{tabular}\end{center}")
      = Ok tree ∧
    Forall (λ n, (∃ children, n = P children) ∨ (∃ html, n = DisplayDiv html) ∨
                 (∃ raw, n = DivText raw)) (flatten tree) ∧
    mount katex_failing tree = Ok (flatten tree).
Proof.
  apply (display_body_mounts katex_failing
    (lit "\[x\]\begin{center}\begin{tabular}\hline\end{tabular}\end{center}"));
    vm_compute; reflexivity.
Defined.

Lemma mapM_mount_segments katex (segments : list jsstring) :
  (Forall (λ segment, ∀ content, segment_node katex segment = TableEl content →
                                 Table_rows content ≠ []) segments →
   ∃ views, mount katex (Arr (segment_node katex <$> segments)) = Ok views) ∧
  (Exists (λ segment, ∃ content, segment_node katex segment = TableEl content ∧
                                 Table_rows content = []) segments →
   mount katex (Arr (segment_node katex <$> segments)) = Throw TypeError).
Proof.
  unfold mount. rewrite flatten_Arr.
  assert (∀ segment,
            (∃ content, segment_node katex segment = TableEl content) ∨
            flatten (segment_node katex segment) = [] ∨
            ∃ n, flatten (segment_node katex segment) = [n] ∧
                 ∀ content, n ≠ TableEl content) as Hcases.
  { intros segment. unfold segment_node.
    destruct (includes begin_center segment && includes begin_tabular segment).
    - destruct (search begin_tabular segment) as [[? after]|];
        [|right; right; by eexists].
      destruct (search end_tabular after) as [[[|??] ?]|]; eauto;
        right; right; by eexists.
    - destruct (decide (trim segment = begin_center ∨ trim segment = end_center));
        [by right; left|right; right; by eexists]. }
  induction segments as [|segment segments [IHok IHbad]]; [split|split].
  - intros _. by eexists.
  - by intros ?%Exists_nil.
  - intros [Hseg Hrest]%Forall_cons. destruct (IHok Hrest) as [views Hviews].
    rewrite fmap_cons, bind_cons.
    destruct (Hcases segment) as [[content Hn]|[Hn|(n & Hn & Hnt)]].
    + rewrite Hn. simpl.
      destruct (Table_rows content) as [|header body] eqn:Hrows;
        [by destruct (Hseg content Hn)|].
      rewrite (Table_Ok katex content header body Hrows). simpl.
      rewrite Hviews. by eexists.
    + rewrite Hn. simpl. eauto.
    + rewrite Hn. simpl. assert (match n with
                                 | TableEl content => Table katex content
                                 | _ => Ok n
                                 end = Ok n) as ->.
      { destruct n; try done. by destruct (Hnt content). }
      simpl. rewrite Hviews. by eexists.
  - intros Hex. rewrite fmap_cons, bind_cons.
    apply Exists_cons in Hex as [(content & Hn & Hrows)|Hex].
    + rewrite Hn. simpl. by rewrite (Table_no_rows katex content Hrows).
    + specialize (IHbad Hex).
      destruct (Hcases segment) as [[content Hn]|[Hn|(n & Hn & Hnt)]].
      * rewrite Hn. simpl.
        destruct (Table_rows content) as [|header body] eqn:Hrows.
        -- by rewrite (Table_no_rows katex content Hrows).
        -- rewrite (Table_Ok katex content header body Hrows). simpl.
           by rewrite IHbad.
      * rewrite Hn. simpl. done.
      * rewrite Hn. simpl. assert (match n with
                                   | TableEl content => Table katex content
                                   | _ => Ok n
                                   end = Ok n) as ->.
        { destruct n; try done. by destruct (Hnt content). }
        simpl. by rewrite IHbad.
Qed.

(** X20. A body without display math fails to mount exactly when one of
    its segments is a table without a surviving row, and the failure is
    the TypeError of the missing header row: if every table segment has a
    row the body mounts, whatever the typesetting engine does. *)
Theorem other_body_mounts katex text :
  includes display_open text && includes display_close text = false →
  (Forall (λ segment, ∀ content, segment_node katex segment = TableEl content →
                                 Table_rows content ≠ [])
          (split_newlines text) →
   ∃ views, renderMath katex text ≫= mount katex = Ok views) ∧
  (Exists (λ segment, ∃ content, segment_node katex segment = TableEl content ∧
                                 Table_rows content = [])
          (split_newlines text) →
   renderMath katex text ≫= mount katex = Throw TypeError).
Proof.
  intros Hno. rewrite renderMath_Ok, Hno.
  apply (mapM_mount_segments katex (split_newlines text)).
Qed.

Lemma other_body_mounts_witness :
  ∃ views,
    renderMath katex_failing
      (lit "\begin{center}\begin{tabular}a & $b$ \\ 1\end{tabular}\end{center}")
    ≫= mount katex_failing = Ok views.
Proof.
  apply (other_body_mounts katex_failing
    (lit "\begin{center}\begin{tabular}a & $b$ \\ 1\end{tabular}\end{center}")).
  - vm_compute. reflexivity.
  - repeat constructor. intros content Hn. vm_compute in Hn.
    injection Hn as <-. vm_compute. discriminate.
Defined.

(** X21. With the four option letters of the quiz screen, the record of a
    multiple-choice question never holds more than four entries, and every
    entry is one of the letters toggled. *)
Theorem record_at_most_four st options :
  record st = [] →
  Forall (λ o, o ∈ [lit "A"; lit "B"; lit "C"; lit "D"]) options →
  Forall (λ a, a ∈ options) (record (toggles st options)) ∧
  length (record (toggles st options)) ≤ 4.
Proof.
  intros Hempty Hopts.
  assert (Forall (λ a, a ∈ options) (record (toggles st options))) as Hsub.
  { apply Forall_forall. intros a. by apply toggles_record_elem. }
  split; [done|].
  destruct (record_invariant st options) as [_ Hnd];
    [rewrite Hempty; constructor..|].
  change 4 with (length [lit "A"; lit "B"; lit "C"; lit "D"]).
  apply submseteq_length, NoDup_submseteq; [done|].
  intros a Ha. eapply Forall_forall in Hsub; [|done].
  by eapply Forall_forall in Hopts.
Qed.

Lemma record_at_most_four_witness :
  length (record (toggles initial
                    [lit "D"; lit "A"; lit "D"; lit "B"; lit "C"; lit "D"])) ≤ 4.
Proof.
  apply (record_at_most_four initial
           [lit "D"; lit "A"; lit "D"; lit "B"; lit "C"; lit "D"]).
  - reflexivity.
  - repeat constructor; compute_done.
Defined.

(** ** Failures of the typesetting engine *)

Lemma typeset_renderToString parse renderError part :
  typeset (renderToString parse renderError false) part =
  match parse false part with
  | Markup html => SpanHtml html
  | ParseError message => SpanHtml (renderError message part)
  | OtherError _ => SpanText part
  end.
Proof. unfold typeset, renderToString. by destruct (parse false part). Qed.

Lemma display_block_renderToString parse renderError inner :
  display_block (renderToString parse renderError false) inner =
  match parse true (trim inner) with
  | Markup html => DisplayDiv html
  | ParseError message => DisplayDiv (renderError message (trim inner))
  | OtherError _ => DivText inner
  end.
Proof.
  unfold display_block, renderToString. by destruct (parse true (trim inner)).
Qed.

Lemma Forall_or_Exists {A} (P Q : A → Prop) (l : list A) :
  (∀ x, P x ∨ Q x) → Forall P l ∨ Exists Q l.
Proof.
  intros HPQ. induction l as [|x l [IH|IH]].
  - left. constructor.
  - destruct (HPQ x); [left; by constructor|right; by constructor].
  - right. by constructor.
Qed.

(** Whether a segment is a table does not depend on the engine. *)
Lemma segment_node_TableEl katex katex' segment content :
  segment_node katex segment = TableEl content →
  segment_node katex' segment = TableEl content.
Proof.
  unfold segment_node.
  destruct (includes begin_center segment && includes begin_tabular segment);
    [done|].
  by destruct (decide (trim segment = begin_center ∨ trim segment = end_center)).
Qed.

Lemma table_segment_cases katex segment :
  (∀ content, segment_node katex segment = TableEl content →
              Table_rows content ≠ []) ∨
  (∃ content, segment_node katex segment = TableEl content ∧
              Table_rows content = []).
Proof.
  destruct (segment_node katex segment) as [| | | | | | | | |content|] eqn:E;
    try (left; intros ? [=]; fail).
  destruct (Table_rows content) eqn:Hrows.
  - right. by exists content.
  - left. intros ? [= <-]. by rewrite Hrows.
Qed.

Lemma display_render_mounts katex text :
  includes display_open text && includes display_close text = true →
  renderMath katex text ≫= mount katex = Ok (display_blocks katex text).
Proof.
  intros [Ho Hc]%andb_true_iff.
  rewrite renderMath_display, renderDisplay_Ok by done.
  change (mount katex (Fragment (part_node katex <$> split_by display_match text))
          = Ok (display_blocks katex text)).
  unfold mount. apply mapM_Ok_id.
  eapply Forall_impl; [apply display_blocks_shape|].
  intros n [[? ->]|[[? ->]|[? ->]]]; done.
Qed.

(** A render ends in its views or in the TypeError of a table without
    rows. *)
Lemma render_mount_cases katex text :
  (∃ views, renderMath katex text ≫= mount katex = Ok views) ∨
  renderMath katex text ≫= mount katex = Throw TypeError.
Proof.
  destruct (includes display_open text && includes display_close text) eqn:Hd.
  - left. rewrite display_render_mounts by done. eauto.
  - rewrite renderMath_Ok, Hd.
    destruct (Forall_or_Exists _ _ (split_newlines text)
                (table_segment_cases katex)) as [Hall|Hex].
    + left. by apply (mapM_mount_segments katex (split_newlines text)).
    + right. by apply (mapM_mount_segments katex (split_newlines text)).
Qed.

(** Whether a render ends in its views does not depend on the engine. *)
Lemma render_mount_engine katex katex' text :
  (∃ views, renderMath katex text ≫= mount katex = Ok views) →
  ∃ views', renderMath katex' text ≫= mount katex' = Ok views'.
Proof.
  intros [views Hviews].
  destruct (includes display_open text && includes display_close text) eqn:Hd.
  - rewrite display_render_mounts by done. eauto.
  - rewrite renderMath_Ok, Hd in Hviews |- *.
    destruct (Forall_or_Exists _ _ (split_newlines text)
                (table_segment_cases katex')) as [Hall|Hex].
    + by apply (mapM_mount_segments katex' (split_newlines text)).
    + assert (Exists (λ segment, ∃ content,
                        segment_node katex segment = TableEl content ∧
                        Table_rows content = []) (split_newlines text)) as Hex'.
      { eapply Exists_impl; [exact Hex|].
        intros segment (content & Hn & Hrows). exists content.
        split; [by eapply segment_node_TableEl|done]. }
      apply (mapM_mount_segments katex (split_newlines text)) in Hex'.
      change (mount katex (Arr (segment_node katex <$> split_newlines text))
              = Ok views) in Hviews.
      congruence.
Qed.



